(** * Class-name discovery in [util/find.ts]

    A shallow embedding of the class-list tokenizers, of the offset to
    position conversion and of the helper-function scanner of
    [packages/tailwindcss-language-service/src/util/find.ts], with the
    properties of these functions that the specification relies on. *)

From Stdlib Require Import ZArith NArith List Bool Lia ZifyBool String Ascii.
Import ListNotations.
Open Scope Z_scope.

(** ** JavaScript strings

    A JavaScript string is a sequence of UTF-16 code units; the separator
    table of the source goes up to U+FEFF, so a code unit is an [N] and not
    a byte. *)

Definition jsstring := list N.

(** String literals of the source that are plain ASCII. *)
Definition lit (s : string) : jsstring :=
  map N_of_ascii (list_ascii_of_string s).

Arguments lit s%_string.

(** [s.length] *)
Definition len (s : jsstring) : Z := Z.of_nat (List.length s).

Definition clamp (s : jsstring) (i : Z) : Z := Z.min (Z.max i 0) (len s).

(** [s.substring(a, b)]: both indices are clamped to [0, s.length] and
    swapped when [a > b]. *)
Definition substring (s : jsstring) (a b : Z) : jsstring :=
  let a' := clamp s a in
  let b' := clamp s b in
  let from := Z.min a' b' in
  let to := Z.max a' b' in
  firstn (Z.to_nat (to - from)) (skipn (Z.to_nat from) s).

(** [a === b] on strings *)
Fixpoint str_eqb (a b : jsstring) : bool :=
  match a, b with
  | [], [] => true
  | x :: a', y :: b' => N.eqb x y && str_eqb a' b'
  | _, _ => false
  end.

(** [list.includes(s)] for an array of strings *)
Definition includes (l : list jsstring) (s : jsstring) : bool :=
  existsb (str_eqb s) l.

(** ** Positions and ranges ([vscode-languageserver]) *)

Record Position := mkPosition { line : Z; character : Z }.

Record Range := mkRange { start : Position; end_ : Position }.

(** ** The [line-column] package

    [indexToPosition] calls [lineColumn(str + '\n').fromIndex(index)]. The
    package is a dependency and not part of [find.ts]; it is modelled by what
    it computes: the finder records the index at which each line starts
    (lines are delimited by U+000A only), [fromIndex] answers [null] for an
    index outside [0, str.length) and otherwise the 1-based line and column
    of the index. The [?? { line: 1, col: 1 }] fallback and the appended
    newline of [indexToPosition] are written against exactly this
    behaviour. *)

Definition NL : N := 10%N.

(** Index of the first code unit of every line after the first one, for the
    text [s] that starts at index [pos]. *)
Fixpoint lineStartsFrom (s : jsstring) (pos : Z) : list Z :=
  match s with
  | [] => []
  | c :: s' =>
      if N.eqb c NL then (pos + 1) :: lineStartsFrom s' (pos + 1)
      else lineStartsFrom s' (pos + 1)
  end.

Definition buildLineToIndex (str : jsstring) : list Z :=
  0 :: lineStartsFrom str 0.

(** Index in [arr] of the last entry that is at most [value] ([arr] is
    increasing and starts with 0). *)
Definition findLowerIndexInRangeArray (value : Z) (arr : list Z) : Z :=
  Z.of_nat (List.length (filter (fun a => a <=? value) arr)) - 1.

(** [lineColumn(str).fromIndex(index)], with the package's default origin 1. *)
Definition fromIndex (str : jsstring) (index : Z) : option (Z * Z) :=
  if (index <? 0) || (index >=? len str) then None
  else
    let lineToIndex := buildLineToIndex str in
    let l := findLowerIndexInRangeArray index lineToIndex in
    Some (l + 1, index - nth (Z.to_nat l) lineToIndex 0 + 1).

(** ** [indexToPosition] *)

Definition indexToPosition (str : jsstring) (index : Z) : Position :=
  let '(l, col) :=
    match fromIndex (str ++ [NL]) index with
    | Some lc => lc
    | None => (1, 1)
    end in
  {| line := l - 1; character := col - 1 |}.

(** The offset a position of [str] stands for: the start of its line plus
    its character. It is the inverse of [indexToPosition] on the indices of
    [str] and is what "the text delimited by a range" means below. *)
Definition positionToIndex (str : jsstring) (p : Position) : Z :=
  nth (Z.to_nat (line p)) (buildLineToIndex (str ++ [NL])) 0 + character p.

Definition textInRange (str : jsstring) (r : Range) : jsstring :=
  substring str (positionToIndex str (start r)) (positionToIndex str (end_ r)).

(** ** Class lists and class names ([./state]) *)

Module DocumentClassList.
Record t := mk {
  classList : jsstring;
  range : Range;
  important : option bool
}.
End DocumentClassList.

Module DocumentClassName.
Record t := mk {
  className : jsstring;
  classList : DocumentClassList.t;
  variants : option (list jsstring);
  relativeRange : Range;
  range : Range
}.
End DocumentClassName.

(** The [range] object literal that both tokenizers build from the range of
    the class list and the [start] and [end] they computed (lines 56-65 and
    127-136): the column of the enclosing start is added when [end.line] is
    0, to the start as well as to the end. *)
Definition absoluteRange (range : Range) (start_ end' : Position) : Range :=
  {| start :=
       {| line := line (start range) + line start_;
          character :=
            (if line end' =? 0 then character (start range) else 0)
            + character start_ |};
     end_ :=
       {| line := line (start range) + line end';
          character :=
            (if line end' =? 0 then character (start range) else 0)
            + character end' |} |}.

(** ** [getClassNamesInClassList] *)

(** The class [\s] of a JavaScript regular expression: WhiteSpace and
    LineTerminator of ECMAScript. *)
Definition is_space (c : N) : bool :=
  ((9 <=? c) && (c <=? 13)
   || (c =? 32) || (c =? 160) || (c =? 5760)
   || ((8192 <=? c) && (c <=? 8202))
   || (c =? 8232) || (c =? 8233) || (c =? 8239) || (c =? 8287)
   || (c =? 12288) || (c =? 65279))%N.

(** [s.split(/(\s+)/)]: the pieces between the maximal runs of [\s], with
    the runs themselves (the capture group) in between; [acc] is the piece
    being read and [inSep] says that it is a run of [\s]. *)
Fixpoint splitFrom (inSep : bool) (acc : jsstring) (s : jsstring)
  : list jsstring :=
  match s with
  | [] => if inSep then [acc; []] else [acc]
  | c :: s' =>
      if is_space c then
        if inSep then splitFrom true (acc ++ [c]) s'
        else acc :: splitFrom true [c] s'
      else
        if inSep then acc :: splitFrom false [c] s'
        else splitFrom false (acc ++ [c]) s'
  end.

Definition splitWhitespace (s : jsstring) : list jsstring :=
  splitFrom false [] s.

(** The object that the loop pushes for the part [part] found at offset
    [index] of the class list. *)
Definition nameAt (cl : DocumentClassList.t) (part : jsstring) (index : Z)
  : DocumentClassName.t :=
  let start_ := indexToPosition (DocumentClassList.classList cl) index in
  let end' :=
    indexToPosition (DocumentClassList.classList cl) (index + len part) in
  {| DocumentClassName.className := part;
     DocumentClassName.classList := cl;
     DocumentClassName.variants := None;
     DocumentClassName.relativeRange := {| start := start_; end_ := end' |};
     DocumentClassName.range :=
       absoluteRange (DocumentClassList.range cl) start_ end' |}.

(** The [for] loop over [parts], from part number [i] on, [index] being the
    offset of that part in the class list. *)
Fixpoint namesFrom (cl : DocumentClassList.t) (blocklist : list jsstring)
    (parts : list jsstring) (i : nat) (index : Z)
  : list DocumentClassName.t :=
  match parts with
  | [] => []
  | part :: parts' =>
      (if Nat.even i && negb (includes blocklist part)
       then [nameAt cl part index]
       else [])
      ++ namesFrom cl blocklist parts' (S i) (index + len part)
  end.

Definition getClassNamesInClassList (cl : DocumentClassList.t)
    (blocklist : list jsstring) : list DocumentClassName.t :=
  namesFrom cl blocklist (splitWhitespace (DocumentClassList.classList cl)) 0 0.

(** ** [getClassNamesAndVariantsInClassList] *)

Definition SEPARATOR_CHARS : list N :=
  [ 32; 10; 9; 13; 12; 11; 160; 5760; 8192; 8202; 8232; 8233; 8239; 8287;
    12288; 65279 ]%N.

Definition is_separator (c : N) : bool := existsb (N.eqb c) SEPARATOR_CHARS.

Definition COLON : N := 58%N.
Definition LPAREN : N := 40%N.
Definition RPAREN : N := 41%N.

(** The only statement of the tokenizer that can throw is
    [globalStack.length -= lastLength], a [RangeError] when the new length
    is negative. *)
Inductive Result (A : Type) : Type :=
  | Ok (a : A)
  | RangeError.

Arguments Ok {A} a.
Arguments RangeError {A}.

(** [arr.pop()] on an array kept in push order *)
Definition pop {A : Type} (arr : list A) : option A * list A :=
  match rev arr with
  | [] => (None, [])
  | x :: r => (Some x, rev r)
  end.

(** [arr.length = n] for [n] at most the current length *)
Definition setLength {A : Type} (arr : list A) (n : Z) : Result (list A) :=
  if n <? 0 then RangeError else Ok (firstn (Z.to_nat n) arr).

(** The variables of the function that the loop updates. *)
Record State := mkState {
  searchingForStart : bool;
  globalStack : list jsstring;
  globalStackLengths : list Z;
  localStack : list jsstring;
  classInfo : list DocumentClassName.t;
  wordIndex : Z
}.

Definition initialState : State :=
  {| searchingForStart := true;
     globalStack := [];
     globalStackLengths := [];
     localStack := [];
     classInfo := [];
     wordIndex := 0 |}.

Section Tokenizer.

Variable cl : DocumentClassList.t.
Variable blocklist : list jsstring.

(** [localStack.reduce((acc, item) => acc + item.length + 1, 0)] *)
Definition localStackOffset (localStack : list jsstring) : Z :=
  fold_left (fun acc item => acc + len item + 1) localStack 0.

(** The class name that [pushClassInfo(idx)] reads and the entry it makes
    for it. *)
Definition classInfoAt (st : State) (idx : Z) : DocumentClassName.t :=
  let className :=
    substring (DocumentClassList.classList cl) (wordIndex st) idx in
  let start_ :=
    indexToPosition (DocumentClassList.classList cl)
      (idx - len className - localStackOffset (localStack st)) in
  let end' := indexToPosition (DocumentClassList.classList cl) idx in
  {| DocumentClassName.className := className;
     DocumentClassName.classList := cl;
     DocumentClassName.variants := Some (globalStack st ++ localStack st);
     DocumentClassName.relativeRange := {| start := start_; end_ := end' |};
     DocumentClassName.range :=
       absoluteRange (DocumentClassList.range cl) start_ end' |}.

(** [pushClassInfo(idx)]: the new value of [classInfo]. *)
Definition pushClassInfo (st : State) (idx : Z) : list DocumentClassName.t :=
  let info := classInfoAt st idx in
  if negb (includes blocklist (DocumentClassName.className info))
  then classInfo st ++ [info]
  else classInfo st.

(** The [else if (currentChar === ')')] branch. *)
Definition closeGroup (st : State) (idx : Z) : Result State :=
  let infos :=
    if negb (searchingForStart st) then pushClassInfo st idx
    else classInfo st in
  let '(lastLength, lengths) := pop (globalStackLengths st) in
  let shrunk :=
    match lastLength with
    | Some n =>
        if n =? 0 then Ok (globalStack st)
        else setLength (globalStack st)
               (Z.of_nat (List.length (globalStack st)) - n)
    | None => Ok (globalStack st)
    end in
  match shrunk with
  | Ok stack =>
      Ok {| searchingForStart := true;
            globalStack := stack;
            globalStackLengths := lengths;
            localStack := [];
            classInfo := infos;
            wordIndex := wordIndex st |}
  | RangeError => RangeError
  end.

(** One turn of the [for] loop, at index [idx] with [classList[idx]]
    equal to [currentChar]. *)
Definition step (currentChar : N) (idx : Z) (st : State) : Result State :=
  if negb (searchingForStart st) && is_separator currentChar then
    Ok {| searchingForStart := true;
          globalStack := globalStack st;
          globalStackLengths := globalStackLengths st;
          localStack := [];
          classInfo := pushClassInfo st idx;
          wordIndex := wordIndex st |}
  else if negb (searchingForStart st) && N.eqb currentChar COLON then
    Ok {| searchingForStart := true;
          globalStack := globalStack st;
          globalStackLengths := globalStackLengths st;
          localStack :=
            localStack st
            ++ [substring (DocumentClassList.classList cl) (wordIndex st) idx];
          classInfo := classInfo st;
          wordIndex := wordIndex st |}
  else if N.eqb currentChar LPAREN then
    Ok {| searchingForStart := true;
          globalStack := globalStack st ++ localStack st;
          globalStackLengths :=
            globalStackLengths st
            ++ [Z.of_nat (List.length (localStack st))];
          localStack := [];
          classInfo := classInfo st;
          wordIndex := wordIndex st |}
  else if N.eqb currentChar RPAREN then closeGroup st idx
  else if searchingForStart st && negb (is_separator currentChar) then
    Ok {| searchingForStart := false;
          globalStack := globalStack st;
          globalStackLengths := globalStackLengths st;
          localStack := localStack st;
          classInfo := classInfo st;
          wordIndex := idx |}
  else Ok st.

(** The [for] loop from index [idx] on, [chars] being the code units of the
    class list from [idx] to its end. *)
Fixpoint scan (chars : jsstring) (idx : Z) (st : State) : Result State :=
  match chars with
  | [] => Ok st
  | currentChar :: chars' =>
      match step currentChar idx st with
      | Ok st' => scan chars' (idx + 1) st'
      | RangeError => RangeError
      end
  end.

Definition getClassNamesAndVariantsInClassList
  : Result (list DocumentClassName.t) :=
  match scan (DocumentClassList.classList cl) 0 initialState with
  | Ok st =>
      Ok (if negb (searchingForStart st)
          then pushClassInfo st (len (DocumentClassList.classList cl))
          else classInfo st)
  | RangeError => RangeError
  end.

End Tokenizer.

(** ** Regular expressions

    The helper-function scanner is written with JavaScript regular
    expressions. They are embedded as syntax trees, one constructor per
    construct the expressions of [find.ts] use, and run by a backtracking
    matcher that tries the alternatives in the order ECMAScript does. *)

Inductive regex : Type :=
  | Eps                                   (* the empty pattern *)
  | Chr (class : N -> bool)               (* one code unit of a class *)
  | Seq (r1 r2 : regex)
  | Alt (r1 r2 : regex)                   (* [r1|r2] *)
  | Star (greedy : bool) (r : regex)      (* [r*] and [r*?] *)
  | Group (name : string) (r : regex)     (* [(r)] and [(?<name>r)] *)
  | NegLook (r : regex)                   (* [(?!r)] *)
  | Bol                                   (* [^] without the m flag *)
  | Eol.                                  (* [$] without the m flag *)

Definition Plus (r : regex) : regex := Seq r (Star true r).

Definition chr (a : ascii) : N := N_of_ascii a.
Arguments chr a%_char.

Definition Lit (a : ascii) : regex := Chr (N.eqb (chr a)).
Arguments Lit a%_char.

Definition Str (s : string) : regex :=
  fold_right (fun a r => Seq (Chr (N.eqb (N_of_ascii a))) r) Eps
    (list_ascii_of_string s).
Arguments Str s%_string.

(** The state of a match attempt: the index reached, the text from there
    on, and the captures made so far, as pairs of indices. *)
Record mstate := mkMstate {
  pos : Z;
  rest : jsstring;
  caps : list (string * (Z * Z))
}.

Definition orElse {A : Type} (a b : option A) : option A :=
  match a with
  | Some x => Some x
  | None => b
  end.

(** [matchRe r k s]: match [r] at [s] and go on with [k]; [None] sends the
    matcher back to the last choice. An iteration of a star that consumes
    nothing is rejected, as in ECMAScript. *)
Fixpoint matchRe (r : regex) (k : mstate -> option mstate) (s : mstate)
  : option mstate :=
  match r with
  | Eps => k s
  | Chr class =>
      match rest s with
      | c :: t =>
          if class c
          then k {| pos := pos s + 1; rest := t; caps := caps s |}
          else None
      | [] => None
      end
  | Seq r1 r2 => matchRe r1 (matchRe r2 k) s
  | Alt r1 r2 => orElse (matchRe r1 k s) (matchRe r2 k s)
  | Star greedy r1 =>
      (fix iter (fuel : nat) (s : mstate) {struct fuel} : option mstate :=
         match fuel with
         | O => k s
         | S fuel' =>
             let more :=
               matchRe r1
                 (fun s' => if pos s <? pos s' then iter fuel' s' else None)
                 s in
             if greedy then orElse more (k s) else orElse (k s) more
         end) (List.length (rest s)) s
  | Group name r1 =>
      matchRe r1
        (fun s' =>
           k {| pos := pos s'; rest := rest s';
                caps := (name, (pos s, pos s')) :: caps s' |}) s
  | NegLook r1 =>
      match matchRe r1 Some s with
      | Some _ => None
      | None => k s
      end
  | Bol => if pos s =? 0 then k s else None
  | Eol => match rest s with [] => k s | _ :: _ => None end
  end.

(** A [RegExpMatchArray]: [index], [match[0]] and the groups by name (a
    numbered group has its number as name). *)
Record RegExpMatch := mkMatch {
  index : Z;
  whole : jsstring;
  groups : list (string * jsstring)
}.

(** [match.groups.name], [None] for [undefined] *)
Fixpoint group (name : string) (gs : list (string * jsstring))
  : option jsstring :=
  match gs with
  | [] => None
  | (n, v) :: gs' => if String.eqb n name then Some v else group name gs'
  end.

Definition groupOr (name : string) (m : RegExpMatch) : jsstring :=
  match group name (groups m) with
  | Some v => v
  | None => []
  end.

(** [re.exec(str)] with the search starting at index [from], the text from
    there on being [tail]: the first index at which [re] matches. *)
Fixpoint execFrom (re : regex) (str : jsstring) (tail : jsstring) (from : Z)
  : option RegExpMatch :=
  match matchRe re Some {| pos := from; rest := tail; caps := [] |} with
  | Some s =>
      Some {| index := from;
              whole := substring str from (pos s);
              groups :=
                map (fun c =>
                       (fst c, substring str (fst (snd c)) (snd (snd c))))
                  (caps s) |}
  | None =>
      match tail with
      | [] => None
      | _ :: tail' => execFrom re str tail' (from + 1)
      end
  end.

Definition exec (re : regex) (str : jsstring) (lastIndex : Z)
  : option RegExpMatch :=
  execFrom re str (skipn (Z.to_nat lastIndex) str) lastIndex.

(** [findAll(re, str)] for a [re] with the g flag: [exec] until it answers
    [null], each search starting where the last match ended. [fuel] bounds
    the number of matches. The bound stands for the loop of the code only
    when no match is empty: after an empty match [exec] finds the same
    match again and the loop of the code does not end. The expressions
    that [find.ts] gives to [findAll] all have to read a code unit, and for
    those the bound of [findAll] below is never reached. *)
Fixpoint findAllFrom (fuel : nat) (re : regex) (str : jsstring) (lastIndex : Z)
  : list RegExpMatch :=
  match fuel with
  | O => []
  | S fuel' =>
      match exec re str lastIndex with
      | None => []
      | Some m => m :: findAllFrom fuel' re str (index m + len (whole m))
      end
  end.

Definition findAll (re : regex) (str : jsstring) : list RegExpMatch :=
  findAllFrom (S (List.length str)) re str 0.

(** [str.replace(re, f)] for a [re] without the g flag: the first match is
    replaced by what [f] makes of it. *)
Definition replaceFirst (re : regex) (str : jsstring)
    (f : jsstring -> jsstring) : jsstring :=
  match exec re str 0 with
  | None => str
  | Some m =>
      firstn (Z.to_nat (index m)) str ++ f (whole m)
      ++ skipn (Z.to_nat (index m + len (whole m))) str
  end.

(** [str.trimEnd()] *)
Fixpoint dropSpaces (s : jsstring) : jsstring :=
  match s with
  | c :: s' => if is_space c then dropSpaces s' else s
  | [] => []
  end.

Definition trimEnd (s : jsstring) : jsstring := rev (dropSpaces (rev s)).

(** [str.slice(0, n)] for [n >= 0] *)
Definition slice0 (s : jsstring) (n : Z) : jsstring := firstn (Z.to_nat n) s.

(** ** [getFirstCommaIndex] *)

Definition COMMA : N := chr ",".
Definition DQUOTE : N := 34%N.
Definition SQUOTE : N := chr "'".

(** The loop from index [i] on; [quoteChar] is [None] for [undefined]. *)
Fixpoint firstCommaFrom (chars : jsstring) (i : Z) (quoteChar : option N)
  : option Z :=
  match chars with
  | [] => None
  | char :: chars' =>
      match quoteChar with
      | None =>
          if N.eqb char COMMA then Some i
          else if N.eqb char DQUOTE || N.eqb char SQUOTE
               then firstCommaFrom chars' (i + 1) (Some char)
               else firstCommaFrom chars' (i + 1) None
      | Some q =>
          if N.eqb char q then firstCommaFrom chars' (i + 1) None
          else firstCommaFrom chars' (i + 1) (Some q)
      end
  end.

Definition getFirstCommaIndex (str : jsstring) : option Z :=
  firstCommaFrom str 0 None.

(** ** [findHelperFunctionsInRange] *)

Inductive Helper := theme | config.

Record HelperRanges := mkRanges { full : Range; path_ : Range }.

Record DocumentHelperFunction := mkHelper {
  helper : Helper;
  path : jsstring;
  ranges : HelperRanges
}.

(** Modelled from the spec: [resolveRange] of [./resolveRange], which is not
    under src/. It is the composition of section 4.1 of the specification:
    the lines are counted from the line of the enclosing start, the column
    of the enclosing start is added to a character on line 0 and a
    character on a later line is kept; without an enclosing range the range
    is returned unchanged. *)
Definition resolveRange (range : Range) (relativeTo : option Range) : Range :=
  match relativeTo with
  | None => range
  | Some rel =>
      let lift (p : Position) :=
        {| line := line (start rel) + line p;
           character :=
             (if line p =? 0 then character (start rel) else 0)
             + character p |} in
      {| start := lift (start range); end_ := lift (end_ range) |}
  end.

Definition is_quote (c : N) : bool := N.eqb c SQUOTE || N.eqb c DQUOTE.

Definition not_space (c : N) : bool := negb (is_space c).

(** The expression of [findHelperFunctionsInRange], which has the g flag,
    group by group:
    - prefix: one code unit of the class [[\s:;/*(){}]];
    - helper: [config|theme];
    - innerPrefix: [\(] and then [\s*];
    - path: [[^)]*?], which is lazy;
    and after the groups [\s*] and [\)]. *)
Definition helperRe : regex :=
  Seq (Group "prefix"
         (Chr (fun c => is_space c
                        || existsb (N.eqb c) (lit ":;/*(){}"))))
  (Seq (Group "helper" (Alt (Str "config") (Str "theme")))
  (Seq (Group "innerPrefix" (Seq (Lit "(") (Star true (Chr is_space))))
  (Seq (Group "path" (Star false (Chr (fun c => negb (N.eqb c (chr ")"))))))
  (Seq (Star true (Chr is_space))
       (Lit ")"))))).

(** [/['\x22]+$/], writing \x22 for the double quote *)
Definition quotesAtEndRe : regex := Seq (Plus (Chr is_quote)) Eol.

(** [/^['\x22]+/] *)
Definition quotesAtStartRe : regex := Seq Bol (Plus (Chr is_quote)).

(** [/^([^\s]+)(?![^\[]*\])(?:\s*\/\s*([^\/\s]+))$/] *)
Definition modifierRe : regex :=
  Seq Bol
  (Seq (Group "1" (Plus (Chr not_space)))
  (Seq (NegLook (Seq (Star true (Chr (fun c => negb (N.eqb c (chr "[")))))
                     (Lit "]")))
  (Seq (Star true (Chr is_space))
  (Seq (Lit "/")
  (Seq (Star true (Chr is_space))
  (Seq (Group "2"
          (Plus (Chr (fun c => negb (N.eqb c (chr "/")) && not_space c))))
       Eol)))))).

(** [/['\x22]*\s*$/] *)
Definition quotesAndSpacesAtEndRe : regex :=
  Seq (Star true (Chr is_quote)) (Seq (Star true (Chr is_space)) Eol).

(** The function that [matches.map] applies to a match in [text]. *)
Definition helperOfMatch (text : jsstring) (range : option Range)
    (m : RegExpMatch) : DocumentHelperFunction :=
  let path0 := groupOr "path" m in
  let path1 :=
    match getFirstCommaIndex path0 with
    | Some commaIndex => trimEnd (slice0 path0 commaIndex)
    | None => path0
    end in
  let path2 := replaceFirst quotesAtEndRe path1 (fun _ => []) in
  let quotesBefore :=
    match exec quotesAtStartRe path2 0 with
    | Some q => whole q
    | None => []
    end in
  let path3 := replaceFirst quotesAtStartRe path2 (fun _ => []) in
  let path4 :=
    match exec modifierRe path3 0 with
    | Some ms => groupOr "1" ms
    | None => path3
    end in
  let path5 := replaceFirst quotesAndSpacesAtEndRe path4 (fun _ => []) in
  let startIndex :=
    index m + len (groupOr "prefix" m) + len (groupOr "helper" m)
    + len (groupOr "innerPrefix" m) in
  {| helper :=
       if str_eqb (groupOr "helper" m) (lit "theme") then theme else config;
     path := path5;
     ranges :=
       {| full :=
            resolveRange
              {| start := indexToPosition text startIndex;
                 end_ := indexToPosition text (startIndex + len path0) |}
              range;
          path_ :=
            resolveRange
              {| start := indexToPosition text (startIndex + len quotesBefore);
                 end_ :=
                   indexToPosition text
                     (startIndex + len quotesBefore + len path5) |}
              range |} |}.

(** [findHelperFunctionsInRange(doc, range)], [text] being what
    [getTextWithoutComments(doc, 'css', range)] returns. *)
Definition findHelperFunctionsInRange (text : jsstring) (range : option Range)
  : list DocumentHelperFunction :=
  map (helperOfMatch text range) (findAll helperRe text).


(** ** Notions used in the statements *)

(** The column reached after reading [s] from column [col]: a newline
    starts the count again. *)
Definition columnAfter (s : jsstring) (col : Z) : Z :=
  fold_left (fun k c => if N.eqb c NL then 0 else k + 1) s col.

(** The number of newlines of [s]. *)
Fixpoint newlines (s : jsstring) : Z :=
  match s with
  | [] => 0
  | c :: s' => (if N.eqb c NL then 1 else 0) + newlines s'
  end.

(** The first [n] code units of [s]. *)
Definition before (s : jsstring) (n : Z) : jsstring := firstn (Z.to_nat n) s.

(** [s] ends with [suffix]. *)
Definition endsWith (s suffix : jsstring) : Prop :=
  exists front, s = front ++ suffix.

(** The names of a list of class names. *)
Definition namesOf (l : list DocumentClassName.t) : list jsstring :=
  map DocumentClassName.className l.

Definition nonEmpty (s : jsstring) : bool :=
  match s with
  | [] => false
  | _ :: _ => true
  end.

(** The code units U+2001 to U+2009, which [\s] has and [SEPARATOR_CHARS]
    has not. *)
Definition in_2001_2009 (c : N) : bool := ((8193 <=? c) && (c <=? 8201))%N.

(** A code unit that is no parenthesis, no colon and none of U+2001 to
    U+2009. *)
Definition plain (c : N) : bool :=
  negb (N.eqb c LPAREN) && negb (N.eqb c RPAREN) && negb (N.eqb c COLON)
  && negb (in_2001_2009 c).

(** The name and the variants of a class name. *)
Definition nameAndVariants (t : DocumentClassName.t)
  : jsstring * option (list jsstring) :=
  (DocumentClassName.className t, DocumentClassName.variants t).

(** A class list with the text [s]. *)
Definition classListOf (s : jsstring) (range : Range) (important : option bool)
  : DocumentClassList.t :=
  {| DocumentClassList.classList := s;
     DocumentClassList.range := range;
     DocumentClassList.important := important |}.

Definition origin : Position := {| line := 0; character := 0 |}.

(** A class list of two names, at line 3, character 12 of its document. *)
Definition twoNames : DocumentClassList.t :=
  classListOf (lit "flex mt-2")
    {| start := {| line := 3; character := 12 |};
       end_ := {| line := 3; character := 21 |} |} None.

(** A class list with blanks around and between its names. *)
Definition blanksAround : DocumentClassList.t :=
  classListOf (lit " flex  mt-2 ") {| start := origin; end_ := origin |} None.

(** A class list with a variant, a line break and a name, at line 5,
    character 10 of its document. *)
Definition brokenAfterColon : DocumentClassList.t :=
  classListOf (lit "a:" ++ [NL] ++ lit "b")
    {| start := {| line := 5; character := 10 |};
       end_ := {| line := 6; character := 1 |} |} None.

(** The empty class list. *)
Definition emptyClassList : DocumentClassList.t :=
  classListOf [] {| start := origin; end_ := origin |} None.

(** The style sheet of the helper-function example. *)
Definition sheet : jsstring :=
  lit ".a { color: theme('colors.red.500' / 50, red); }".

(** Class lists with the code unit U+2003, which [\s] has and
    [SEPARATOR_CHARS] has not: between two names, and alone. *)
Definition emSpaced : DocumentClassList.t :=
  classListOf (lit "a" ++ [8195%N] ++ lit "b")
    {| start := origin; end_ := origin |} None.

Definition emSpaceOnly : DocumentClassList.t :=
  classListOf [8195%N] {| start := origin; end_ := origin |} None.

(** The names that the loop of [getClassNamesInClassList] keeps: the even
    parts that are not on the blocklist. *)
Fixpoint evenNames (blocklist : list jsstring) (parts : list jsstring)
    (i : nat) : list jsstring :=
  match parts with
  | [] => []
  | part :: parts' =>
      (if Nat.even i && negb (includes blocklist part) then [part] else [])
      ++ evenNames blocklist parts' (S i)
  end.

(** The rule of composition for one position: [q] is [p] with the column of
    the enclosing start added when [p] is on line 0, and with the character
    of [p] otherwise. *)
Definition shiftedOnLine0 (enclosing : Range) (p q : Position) : Prop :=
  (line p = 0 -> character q = character (start enclosing) + character p)
  /\ (line p <> 0 -> character q = character p).

(** ** Invariants of the variant-aware scan *)

Definition sumZ (l : list Z) : Z := fold_right Z.add 0 l.

(** The lengths recorded at the opening parentheses add up to the length of
    the global stack. *)
Definition StackInv (st : State) : Prop :=
  Z.of_nat (List.length (globalStack st)) = sumZ (globalStackLengths st)
  /\ Forall (fun n => 0 <= n) (globalStackLengths st).

(** [t] is the entry that [pushClassInfo] makes at some index of the class
    list with some word start before it, for a name off the blocklist. *)
Definition Emitted (cl : DocumentClassList.t) (blocklist : list jsstring)
    (t : DocumentClassName.t) : Prop :=
  exists st idx,
    0 <= wordIndex st <= idx
    /\ idx <= len (DocumentClassList.classList cl)
    /\ (~ In COLON (DocumentClassList.classList cl) -> localStack st = [])
    /\ includes blocklist (DocumentClassName.className (classInfoAt cl st idx))
       = false
    /\ t = classInfoAt cl st idx.

Definition TokInv (cl : DocumentClassList.t) (blocklist : list jsstring)
    (idx : Z) (st : State) : Prop :=
  0 <= wordIndex st <= idx
  /\ (~ In COLON (DocumentClassList.classList cl) -> localStack st = [])
  /\ Forall (Emitted cl blocklist) (classInfo st).

(** ** The pending variants of the variant-aware scan *)








(** ** Notions used in the further properties *)

(** What the tokenizers compute from the text of the class list alone. *)
Definition localPart (t : DocumentClassName.t)
  : jsstring * option (list jsstring) * Range :=
  (DocumentClassName.className t, DocumentClassName.variants t,
   DocumentClassName.relativeRange t).

(** The test of the blocklist on a class name. *)
Definition offBlocklist (blocklist : list jsstring) (t : DocumentClassName.t)
  : bool :=
  negb (includes blocklist (DocumentClassName.className t)).

(** A code unit that can begin a word of the variant-aware scan, and one
    that can continue it. *)
Definition wordStart (c : N) : bool :=
  negb (is_separator c) && negb (N.eqb c LPAREN) && negb (N.eqb c RPAREN).

Definition wordNext (c : N) : bool := wordStart c && negb (N.eqb c COLON).

(** A word of the variant-aware scan: not empty, without separators and
    parentheses, and without a colon after its first code unit. *)
Definition isWord (s : jsstring) : bool :=
  match s with
  | [] => false
  | c :: w => wordStart c && forallb wordNext w
  end.

(** Strict lexicographic order of positions. *)
Definition pos_lt (p q : Position) : Prop :=
  line p < line q \/ (line p = line q /\ character p < character q).

(** The position [p], counted from the position [base]: lines add up, and
    the characters add up on the line of [base]. *)
Definition fromBase (base p : Position) : Position :=
  {| line := line base + line p;
     character := (if line p =? 0 then character base else 0) + character p |}.

(** The offsets of a local range in the text of the class list. *)
Definition startOffset (text : jsstring) (t : DocumentClassName.t) : Z :=
  positionToIndex text (start (DocumentClassName.relativeRange t)).

Definition endOffset (text : jsstring) (t : DocumentClassName.t) : Z :=
  positionToIndex text (end_ (DocumentClassName.relativeRange t)).

(** Two states of the scan that differ in [classInfo] at most. *)
Definition sameControl (st1 st2 : State) : Prop :=
  searchingForStart st1 = searchingForStart st2
  /\ globalStack st1 = globalStack st2
  /\ globalStackLengths st1 = globalStackLengths st2
  /\ localStack st1 = localStack st2
  /\ wordIndex st1 = wordIndex st2.

(** A class name whose name and variants are words of the scan. *)
Definition wordsOnly (t : DocumentClassName.t) : Prop :=
  isWord (DocumentClassName.className t) = true
  /\ exists vs,
       DocumentClassName.variants t = Some vs
       /\ Forall (fun v => isWord v = true) vs.

(** The words of a state of the scan at index [idx]: the word that is open,
    the variants on the stacks and the class names made so far. *)
Definition WordInv (cl : DocumentClassList.t) (idx : Z) (st : State) : Prop :=
  0 <= wordIndex st <= idx
  /\ (searchingForStart st = false ->
      isWord (substring (DocumentClassList.classList cl) (wordIndex st) idx)
      = true)
  /\ Forall (fun v => isWord v = true) (localStack st)
  /\ Forall (fun v => isWord v = true) (globalStack st)
  /\ Forall wordsOnly (classInfo st).

(** A state of the scan without variants. *)
Definition NoVariants (st : State) : Prop :=
  localStack st = [] /\ globalStack st = []
  /\ Forall (fun t => DocumentClassName.variants t = Some []) (classInfo st).

(** A code unit that is neither a comma nor a quote. *)
Definition noCommaNoQuote (c : N) : bool :=
  negb (N.eqb c COMMA) && negb (is_quote c).

(** The state [s1] is the state [s] after some code units [w] were read. *)
Definition advances (s s1 : mstate) : Prop :=
  exists w, rest s = w ++ rest s1 /\ pos s1 = pos s + len w.

(** An expression that reads at least one code unit whenever it matches. *)
Fixpoint consumes (r : regex) : bool :=
  match r with
  | Chr _ => true
  | Seq r1 r2 => consumes r1 || consumes r2
  | Alt r1 r2 => consumes r1 && consumes r2
  | Group _ r1 => consumes r1
  | Eps | Star _ _ | NegLook _ | Bol | Eol => false
  end.

(** The matches [ms] are pieces of [str], one after the other from the
    index [from] on, without overlap. *)
Fixpoint inOrder (str : jsstring) (from : Z) (ms : list RegExpMatch) : Prop :=
  match ms with
  | [] => True
  | m :: ms' =>
      from <= index m
      /\ index m + len (whole m) <= len str
      /\ whole m = substring str (index m) (index m + len (whole m))
      /\ inOrder str (index m + len (whole m)) ms'
  end.

(** [findLast(re, str)], [None] for [null] *)
Definition findLast (re : regex) (str : jsstring) : option RegExpMatch :=
  let matches := findAll re str in
  match matches with
  | [] => None
  | m :: matches' => Some (last matches' m)
  end.

(** The names of the groups of an expression. *)
Fixpoint groupNames (r : regex) : list string :=
  match r with
  | Seq r1 r2 | Alt r1 r2 => groupNames r1 ++ groupNames r2
  | Star _ r1 | NegLook r1 => groupNames r1
  | Group name r1 => name :: groupNames r1
  | Eps | Chr _ | Bol | Eol => []
  end.

(** Every class of an expression, outside its lookaheads, is within the
    class [P]. *)
Fixpoint classesWithin (P : N -> bool) (r : regex) : Prop :=
  match r with
  | Chr class => forall c, class c = true -> P c = true
  | Seq r1 r2 | Alt r1 r2 => classesWithin P r1 /\ classesWithin P r2
  | Star _ r1 | Group _ r1 => classesWithin P r1
  | Eps | NegLook _ | Bol | Eol => True
  end.

(** The state [s1] is the state [s] after the expression [r] read the code
    units [w], all of the class [P], and made the captures [added]. *)
Definition runs (P : N -> bool) (r : regex) (s s1 : mstate) (w : jsstring)
  : Prop :=
  rest s = w ++ rest s1
  /\ pos s1 = pos s + len w
  /\ forallb P w = true
  /\ exists added,
       caps s1 = added ++ caps s
       /\ Forall (fun c => In (fst c) (groupNames r)) added.

(** [r+?] and [r?] *)
Definition PlusLazy (r : regex) : regex := Seq r (Star false r).

Definition Opt (r : regex) : regex := Alt r Eps.

(** The state [s] of a match attempt is at its place in the text [str]. *)
Definition located (str : jsstring) (s : mstate) : Prop :=
  exists front, str = front ++ rest s /\ pos s = len front.

(** The values of the groups of a match, from its captures. *)
Definition groupValues (str : jsstring) (cs : list (string * (Z * Z)))
  : list (string * jsstring) :=
  map (fun c => (fst c, substring str (fst (snd c)) (snd (snd c)))) cs.

(** An expression whose last piece is [$]. *)
Fixpoint endsAtEol (r : regex) : bool :=
  match r with
  | Seq _ r2 => endsAtEol r2
  | Eol => true
  | _ => false
  end.

(** ** [findClassListsInCssRange] *)

Definition notSemicolonOrBrace (c : N) : bool :=
  negb (N.eqb c (chr ";") || N.eqb c (chr "}")).

Definition notBraceOrLineEnd (c : N) : bool :=
  negb (N.eqb c (chr "}") || N.eqb c 13%N || N.eqb c NL).

(** The first two groups of both expressions, for a class [C] of the code
    units of a class list: the group 1, [@apply] and [\s+], and the group
    classList, one or more code units of [C], as few as possible. *)
Definition applyHead (C : N -> bool) (tail : regex) : regex :=
  Seq (Group "1" (Seq (Str "@apply") (Plus (Chr is_space))))
  (Seq (Group "classList" (PlusLazy (Chr C)))
       tail).

(** The group important, which is optional: [\s*] and [!important]. *)
Definition importantOpt : regex :=
  Opt (Group "important" (Seq (Star true (Chr is_space)) (Str "!important"))).

(** The expression for the languages with semicolons, which has the g
    flag: the two groups with the class [[^;}]], the optional group
    important, then [\s*] and one of [;] and [}]. *)
Definition applyRe : regex :=
  applyHead notSemicolonOrBrace
    (Seq importantOpt
    (Seq (Star true (Chr is_space))
         (Chr (fun c => N.eqb c (chr ";") || N.eqb c (chr "}"))))).

(** The expression for the languages without semicolons: the two groups
    with the class [[^}\r\n]], the optional group important, then one of
    [\r], [\n], [}] and the end of the text. *)
Definition applyReSemicolonless : regex :=
  applyHead notBraceOrLineEnd
    (Seq importantOpt
         (Alt (Chr (N.eqb 13%N))
         (Alt (Chr (N.eqb NL))
         (Alt (Lit "}") Eol)))).

(** The function that [matches.map] applies to a match in [text];
    [globalStart] is [range.start], or line 0, character 0 without a
    range. *)
Definition classListOfMatch (text : jsstring) (globalStart : Position)
    (m : RegExpMatch) : DocumentClassList.t :=
  let start_ := indexToPosition text (index m + len (groupOr "1" m)) in
  let end' :=
    indexToPosition text
      (index m + len (groupOr "1" m) + len (groupOr "classList" m)) in
  {| DocumentClassList.classList := groupOr "classList" m;
     DocumentClassList.important :=
       Some (match group "important" (groups m) with
             | Some v => nonEmpty v
             | None => false
             end);
     DocumentClassList.range :=
       {| start :=
            {| line := line globalStart + line start_;
               character :=
                 (if line end' =? 0 then character globalStart else 0)
                 + character start_ |};
          end_ :=
            {| line := line globalStart + line end';
               character :=
                 (if line end' =? 0 then character globalStart else 0)
                 + character end' |} |} |}.

(** [findClassListsInCssRange(state, doc, range, lang)], [text] being what
    [getTextWithoutComments(doc, 'css', range)] returns and [semicolonless]
    what [isSemicolonlessCssLanguage] answers for the language. *)
Definition findClassListsInCssRange (text : jsstring) (semicolonless : bool)
    (range : option Range) : list DocumentClassList.t :=
  let regex := if semicolonless then applyReSemicolonless else applyRe in
  let matches := findAll regex text in
  let globalStart :=
    match range with
    | Some r => start r
    | None => {| line := 0; character := 0 |}
    end in
  map (classListOfMatch text globalStart) matches.

Definition notCloseParen (c : N) : bool := negb (N.eqb c (chr ")")).

(** ** Samples for the further properties *)

(** The class list [flex mt-2] on line 0, from the character [c] on. *)
Definition flexMt2At (c : Z) (important : option bool)
  : DocumentClassList.t :=
  classListOf (lit "flex mt-2")
    {| start := {| line := 0; character := c |};
       end_ := {| line := 0; character := c + 9 |} |} important.

(** A class list with parentheses and without a colon. *)
Definition parenthesized : DocumentClassList.t :=
  classListOf (lit "(a b) c") {| start := origin; end_ := origin |} None.

(** A class attribute: what stands before its class list, the class list,
    at character 10 of line 0, and what stands after it. *)
Definition markupBefore : jsstring := lit "<p class='".

Definition markupAfter : jsstring := lit "'>".

Definition inMarkup : DocumentClassList.t :=
  classListOf (lit "sm:flex mt-2")
    {| start := {| line := 0; character := 10 |};
       end_ := {| line := 0; character := 22 |} |} None.

(** Texts of two lines. *)
Definition twoLines : jsstring := lit "ab" ++ [NL] ++ lit "cd".

Definition twoMoreLines : jsstring := lit "e" ++ [NL] ++ lit "fg".

(** A style sheet with an [@apply] rule, alone and in a [style] element,
    where it starts at character 7 of line 0. *)
Definition applySheet : jsstring := lit ".a { @apply flex mt-2; }".

Definition styleBefore : jsstring := lit "<style>".

Definition styleAfter : jsstring := lit "</style>".

Definition styleRange : Range :=
  {| start := {| line := 0; character := 7 |};
     end_ := {| line := 0; character := 31 |} |}.

(** The helper function of the style sheet [sheet]. *)
Definition themeInSheet : DocumentHelperFunction :=
  {| helper := theme;
     path := lit "colors.red.500";
     ranges :=
       {| full :=
            {| start := {| line := 0; character := 18 |};
               end_ := {| line := 0; character := 44 |} |};
          path_ :=
            {| start := {| line := 0; character := 19 |};
               end_ := {| line := 0; character := 33 |} |} |} |}.

(** * Properties *)

(** ** Strings *)

Lemma len_nonneg (s : jsstring) : 0 <= len s.
Proof. unfold len. lia. Qed.

Lemma len_app (a b : jsstring) : len (a ++ b) = len a + len b.
Proof. unfold len. rewrite length_app. lia. Qed.

Lemma len_cons (c : N) (s : jsstring) : len (c :: s) = len s + 1.
Proof. unfold len. simpl List.length. lia. Qed.

Lemma len_nil : len [] = 0.
Proof. reflexivity. Qed.

Lemma str_eqb_eq (a b : jsstring) : str_eqb a b = true <-> a = b.
Proof.
  revert b. induction a as [|x a IH]; intros [|y b]; simpl; split;
    try congruence; try reflexivity.
  - intros H. apply andb_true_iff in H as [Hx Hab].
    apply N.eqb_eq in Hx. apply IH in Hab. congruence.
  - intros H. injection H as -> ->. rewrite N.eqb_refl. simpl.
    apply IH. reflexivity.
Qed.

Lemma includes_In (l : list jsstring) (s : jsstring) :
  includes l s = true <-> In s l.
Proof.
  unfold includes. rewrite existsb_exists. split.
  - intros (x & Hin & Heq). apply str_eqb_eq in Heq. subst. assumption.
  - intros Hin. exists s. split; [assumption | apply str_eqb_eq; reflexivity].
Qed.

Lemma clamp_id (s : jsstring) (i : Z) : 0 <= i <= len s -> clamp s i = i.
Proof. unfold clamp. lia. Qed.

(** The text between two indices of a string cut in three. *)
Lemma substring_middle (a w b : jsstring) :
  substring (a ++ w ++ b) (len a) (len a + len w) = w.
Proof.
  unfold substring.
  pose proof (len_nonneg a). pose proof (len_nonneg w).
  pose proof (len_nonneg b).
  rewrite !clamp_id by (rewrite !len_app; lia).
  replace (Z.min (len a) (len a + len w)) with (len a) by lia.
  replace (Z.max (len a) (len a + len w) - len a) with (len w) by lia.
  unfold len. rewrite !Nat2Z.id.
  rewrite skipn_app, skipn_all, Nat.sub_diag. simpl.
  rewrite firstn_app, firstn_all, Nat.sub_diag. simpl.
  apply app_nil_r.
Qed.

Lemma substring_split (s : jsstring) (i j k : Z) :
  0 <= i <= j -> j <= k <= len s ->
  substring s i k = substring s i j ++ substring s j k.
Proof.
  intros Hij Hjk. unfold substring.
  rewrite !clamp_id by lia.
  rewrite !Z.min_l, !Z.max_r by lia.
  replace (Z.to_nat (k - i)) with (Z.to_nat (j - i) + Z.to_nat (k - j))%nat
    by lia.
  replace (Z.to_nat j) with (Z.to_nat (j - i) + Z.to_nat i)%nat by lia.
  rewrite <- skipn_skipn.
  set (t := skipn (Z.to_nat i) s).
  rewrite <- (firstn_skipn (Z.to_nat (j - i)) t) at 1.
  rewrite firstn_app.
  assert (Hlen : (Z.to_nat (j - i) <= List.length t)%nat).
  { subst t. rewrite length_skipn. unfold len in *. lia. }
  rewrite length_firstn, Nat.min_l by assumption.
  rewrite firstn_firstn.
  replace (Nat.min (Z.to_nat (j - i) + Z.to_nat (k - j)) (Z.to_nat (j - i)))
    with (Z.to_nat (j - i)) by lia.
  f_equal. f_equal. lia.
Qed.

Lemma len_substring (s : jsstring) (i j : Z) :
  0 <= i <= j -> j <= len s -> len (substring s i j) = j - i.
Proof.
  intros Hi Hj. unfold substring.
  rewrite !clamp_id by lia. rewrite Z.min_l, Z.max_r by lia.
  unfold len in *. rewrite length_firstn, length_skipn. lia.
Qed.

(** ** The embedding on small inputs *)

Example splitWhitespace_blanks :
  splitWhitespace (lit " a  b ")
  = [ []; lit " "; lit "a"; lit "  "; lit "b"; lit " "; [] ].
Proof. reflexivity. Qed.

Example splitWhitespace_empty : splitWhitespace [] = [ [] ].
Proof. reflexivity. Qed.

Example indexToPosition_second_line :
  indexToPosition (lit "ab" ++ [NL] ++ lit "cd") 4
  = {| line := 1; character := 1 |}.
Proof. reflexivity. Qed.

Example indexToPosition_end_of_text :
  indexToPosition (lit "ab") 2 = {| line := 0; character := 2 |}.
Proof. reflexivity. Qed.

Example getFirstCommaIndex_quoted :
  getFirstCommaIndex (lit "'a,b' , c") = Some 6.
Proof. reflexivity. Qed.

Example getFirstCommaIndex_none : getFirstCommaIndex (lit "'a,b'") = None.
Proof. reflexivity. Qed.

Example modifier_in_brackets_is_kept :
  map path (findHelperFunctionsInRange (lit "a{b:theme(spacing[2/3])}") None)
  = [ lit "spacing[2/3]" ].
Proof. vm_compute. reflexivity. Qed.

(** ** Offsets and positions *)

Lemma lineStartsFrom_gt (s : jsstring) (pos k : Z) :
  In k (lineStartsFrom s pos) -> pos < k.
Proof.
  revert pos. induction s as [|c s IH]; intros pos; simpl; [tauto|].
  destruct (N.eqb c NL); simpl.
  - intros [<- | Hin]; [lia | apply IH in Hin; lia].
  - intros Hin. apply IH in Hin. lia.
Qed.

Lemma newlines_nonneg (s : jsstring) : 0 <= newlines s.
Proof. induction s as [|c s IH]; simpl; [lia | destruct (N.eqb c NL); lia]. Qed.

Lemma newlines_app (a b : jsstring) :
  newlines (a ++ b) = newlines a + newlines b.
Proof. induction a as [|c a IH]; simpl; [reflexivity | rewrite IH; lia]. Qed.

Lemma columnAfter_app (a b : jsstring) (col : Z) :
  columnAfter (a ++ b) col = columnAfter b (columnAfter a col).
Proof. unfold columnAfter. apply fold_left_app. Qed.

Lemma columnAfter_cons (c : N) (s : jsstring) (col : Z) :
  columnAfter (c :: s) col
  = columnAfter s (if N.eqb c NL then 0 else col + 1).
Proof. reflexivity. Qed.

Lemma nth_succ {A : Type} (n : nat) (a : A) (l : list A) (d : A) :
  nth (S n) (a :: l) d = nth n l d.
Proof. reflexivity. Qed.

Lemma before_cons (c : N) (s : jsstring) (k : Z) :
  0 < k -> before (c :: s) k = c :: before s (k - 1).
Proof.
  intros Hk. unfold before.
  replace (Z.to_nat k) with (S (Z.to_nat (k - 1))) by lia. reflexivity.
Qed.

Lemma before_app_le (a b : jsstring) (k : Z) :
  k <= len a -> before (a ++ b) k = before a k.
Proof.
  intros Hk. unfold before, len in *. rewrite firstn_app.
  replace (Z.to_nat k - List.length a)%nat with 0%nat by lia.
  simpl. apply app_nil_r.
Qed.

Lemma before_app_len (a b : jsstring) : before (a ++ b) (len a) = a.
Proof.
  unfold before, len. rewrite Nat2Z.id, firstn_app, firstn_all, Nat.sub_diag.
  simpl. apply app_nil_r.
Qed.

Lemma filter_none {A : Type} (f : A -> bool) (l : list A) :
  (forall x, In x l -> f x = false) -> filter f l = [].
Proof.
  induction l as [|x l IH]; intros H; simpl; [reflexivity|].
  rewrite (H x (or_introl eq_refl)). apply IH.
  intros y Hy. apply H. right. assumption.
Qed.

(** The line starts up to an index are as many as the newlines before it. *)
Lemma count_lineStarts (s : jsstring) (pos k : Z) :
  0 <= k ->
  Z.of_nat
    (List.length (filter (fun a => a <=? pos + k) (lineStartsFrom s pos)))
  = newlines (before s k).
Proof.
  revert pos k. induction s as [|c s IH]; intros pos k Hk.
  - unfold before. rewrite firstn_nil. reflexivity.
  - destruct (Z.eq_dec k 0) as [-> | Hne].
    + unfold before. simpl firstn. simpl newlines.
      rewrite filter_none; [reflexivity|].
      intros x Hin. apply lineStartsFrom_gt in Hin. lia.
    + rewrite before_cons by lia. cbn [newlines lineStartsFrom].
      destruct (N.eqb c NL); cbn [filter].
      * replace (pos + 1 <=? pos + k) with true by lia. cbn [List.length].
        rewrite <- (IH (pos + 1) (k - 1)) by lia.
        replace (pos + 1 + (k - 1)) with (pos + k) by lia. lia.
      * rewrite <- (IH (pos + 1) (k - 1)) by lia.
        replace (pos + 1 + (k - 1)) with (pos + k) by lia. lia.
Qed.

(** The start of the line of an index, [first] being the start of the line
    that [pos] is on. *)
Lemma nth_lineStart (s : jsstring) (pos first k : Z) :
  0 <= k <= len s ->
  nth (Z.to_nat (newlines (before s k))) (first :: lineStartsFrom s pos) 0
  = pos + k - columnAfter (before s k) (pos - first).
Proof.
  revert pos first k. induction s as [|c s IH]; intros pos first k Hk.
  - rewrite len_nil in Hk. assert (k = 0) as -> by lia.
    unfold before. simpl. lia.
  - destruct (Z.eq_dec k 0) as [-> | Hne].
    + unfold before. simpl. lia.
    + rewrite len_cons in Hk. rewrite before_cons by lia.
      pose proof (newlines_nonneg (before s (k - 1))) as Hn.
      cbn [newlines lineStartsFrom]. rewrite columnAfter_cons.
      destruct (N.eqb c NL).
      * replace (Z.to_nat (1 + newlines (before s (k - 1))))
          with (S (Z.to_nat (newlines (before s (k - 1))))) by lia.
        rewrite nth_succ. rewrite (IH (pos + 1) (pos + 1) (k - 1)) by lia.
        replace (pos + 1 - (pos + 1)) with 0 by lia. lia.
      * replace (0 + newlines (before s (k - 1)))
          with (newlines (before s (k - 1))) by lia.
        rewrite (IH (pos + 1) first (k - 1)) by lia.
        replace (pos + 1 - first) with (pos - first + 1) by lia. lia.
Qed.

(** What [indexToPosition] computes on the indices of the text: the line is
    the number of newlines before the index and the character is the number
    of code units since the last of them. *)
Lemma indexToPosition_in_range (str : jsstring) (i : Z) :
  0 <= i <= len str ->
  indexToPosition str i
  = {| line := newlines (before str i);
       character := columnAfter (before str i) 0 |}.
Proof.
  intros Hi. unfold indexToPosition, fromIndex.
  rewrite len_app, len_cons, len_nil.
  replace ((i <? 0) || (i >=? len str + (0 + 1))) with false by lia.
  unfold findLowerIndexInRangeArray, buildLineToIndex.
  cbn [filter]. replace (0 <=? i) with true by lia. cbn [List.length].
  rewrite Nat2Z.inj_succ.
  pose proof (count_lineStarts (str ++ [NL]) 0 i ltac:(lia)) as Hc.
  rewrite Z.add_0_l in Hc. rewrite Hc.
  rewrite before_app_le by lia.
  replace (Z.succ (newlines (before str i)) - 1)
    with (newlines (before str i)) by lia.
  pose proof (nth_lineStart (str ++ [NL]) 0 0 i) as Hn.
  rewrite before_app_le in Hn by lia.
  rewrite Hn by (rewrite len_app, len_cons, len_nil; lia).
  cbn beta iota. rewrite Z.sub_diag. f_equal; lia.
Qed.

(** Outside the indices of the text [fromIndex] answers [null] and the
    fallback gives the first position. *)
Lemma indexToPosition_out_of_range (str : jsstring) (i : Z) :
  i < 0 \/ len str < i ->
  indexToPosition str i = {| line := 0; character := 0 |}.
Proof.
  intros Hi. unfold indexToPosition, fromIndex.
  rewrite len_app, len_cons, len_nil.
  replace ((i <? 0) || (i >=? len str + (0 + 1))) with true by lia.
  reflexivity.
Qed.

Lemma positionToIndex_indexToPosition (str : jsstring) (i : Z) :
  0 <= i <= len str ->
  positionToIndex str (indexToPosition str i) = i.
Proof.
  intros Hi. rewrite indexToPosition_in_range by assumption.
  unfold positionToIndex, buildLineToIndex. cbn [line character].
  pose proof (nth_lineStart (str ++ [NL]) 0 0 i) as Hn.
  rewrite before_app_le in Hn by lia.
  rewrite Hn by (rewrite len_app, len_cons, len_nil; lia).
  rewrite Z.sub_diag. lia.
Qed.

Lemma positionToIndex_origin (str : jsstring) :
  positionToIndex str {| line := 0; character := 0 |} = 0.
Proof. reflexivity. Qed.

(** The index that the position of any offset stands for. *)
Lemma positionToIndex_any (str : jsstring) (i : Z) :
  positionToIndex str (indexToPosition str i)
  = if (i <? 0) || (len str <? i) then 0 else i.
Proof.
  destruct ((i <? 0) || (len str <? i)) eqn:E.
  - rewrite indexToPosition_out_of_range by lia. reflexivity.
  - apply positionToIndex_indexToPosition. lia.
Qed.

Lemma before_split (s : jsstring) (i j : Z) :
  0 <= i <= j -> j <= len s ->
  before s j = before s i ++ substring s i j.
Proof.
  intros Hi Hj. unfold before, substring.
  rewrite !clamp_id by lia. rewrite Z.min_l, Z.max_r by lia.
  replace (Z.to_nat j) with (Z.to_nat i + Z.to_nat (j - i))%nat by lia.
  rewrite <- (firstn_skipn (Z.to_nat i) s) at 1.
  rewrite firstn_app.
  assert (Hl : List.length (firstn (Z.to_nat i) s) = Z.to_nat i).
  { rewrite length_firstn. unfold len in *. lia. }
  rewrite Hl.
  replace (Z.to_nat i + Z.to_nat (j - i) - Z.to_nat i)%nat
    with (Z.to_nat (j - i)) by lia.
  f_equal. rewrite firstn_firstn. f_equal. lia.
Qed.

(** Lines do not decrease with the index. *)
Lemma line_monotone (str : jsstring) (i j : Z) :
  0 <= i <= j -> j <= len str ->
  line (indexToPosition str i) <= line (indexToPosition str j).
Proof.
  intros Hi Hj. rewrite !indexToPosition_in_range by lia. cbn [line].
  rewrite (before_split str i j) by lia. rewrite newlines_app.
  pose proof (newlines_nonneg (substring str i j)). lia.
Qed.

(** Two indices with no newline between them are on the same line. *)
Lemma line_same (str : jsstring) (i j : Z) :
  0 <= i <= j -> j <= len str ->
  newlines (substring str i j) = 0 ->
  line (indexToPosition str i) = line (indexToPosition str j).
Proof.
  intros Hi Hj Hn. rewrite !indexToPosition_in_range by lia. cbn [line].
  rewrite (before_split str i j) by lia. rewrite newlines_app. lia.
Qed.

Lemma line_nonneg (str : jsstring) (i : Z) :
  0 <= line (indexToPosition str i).
Proof.
  destruct (Z_lt_dec i 0) as [Hneg | Hpos].
  - rewrite indexToPosition_out_of_range by lia. simpl. lia.
  - destruct (Z_lt_dec (len str) i) as [Hbig | Hin].
    + rewrite indexToPosition_out_of_range by lia. simpl. lia.
    + rewrite indexToPosition_in_range by lia. cbn [line].
      apply newlines_nonneg.
Qed.

(** ** The parts of a class list *)

Lemma concat_splitFrom (s : jsstring) (inSep : bool) (acc : jsstring) :
  List.concat (splitFrom inSep acc s) = acc ++ s.
Proof.
  revert inSep acc. induction s as [|c s IH]; intros inSep acc.
  - destruct inSep; simpl; rewrite ?app_nil_r; reflexivity.
  - simpl. destruct (is_space c), inSep; simpl; rewrite IH;
      rewrite <- ?app_assoc; reflexivity.
Qed.

(** A run of [\s] that ends the string is one part, followed by an empty
    one. *)
Lemma splitFrom_spaces (s : jsstring) (acc : jsstring) :
  forallb is_space s = true -> splitFrom true acc s = [acc ++ s; []].
Proof.
  revert acc. induction s as [|c s IH]; intros acc Hs; simpl.
  - rewrite app_nil_r. reflexivity.
  - simpl in Hs. apply andb_true_iff in Hs as [Hc Hs]. rewrite Hc.
    rewrite IH by assumption. rewrite <- app_assoc. reflexivity.
Qed.

Lemma forallb_snoc {A : Type} (f : A -> bool) (l : list A) (x : A) :
  forallb f l = true -> f x = true -> forallb f (l ++ [x]) = true.
Proof.
  intros Hl Hx. rewrite forallb_app, Hl. simpl. rewrite Hx. reflexivity.
Qed.

Lemma not_space_no_newline (w : jsstring) :
  forallb not_space w = true -> newlines w = 0.
Proof.
  induction w as [|c w IH]; simpl; [reflexivity|].
  intros H. apply andb_true_iff in H as [Hc Hw]. rewrite (IH Hw).
  destruct (N.eqb_spec c NL) as [-> | _]; [discriminate Hc | reflexivity].
Qed.

Section Flat.

Variable cl : DocumentClassList.t.
Variable blocklist : list jsstring.

Let text := DocumentClassList.classList cl.

(** Every class name that the loop pushes is an even part: a piece of the
    class list without [\s] that is not on the blocklist, at its offset. *)
Lemma namesFrom_splitFrom (s : jsstring) :
  forall (inSep : bool) (acc pre : jsstring) (i : nat) t,
    text = pre ++ acc ++ s ->
    Nat.even i = negb inSep ->
    (inSep = false -> forallb not_space acc = true) ->
    In t (namesFrom cl blocklist (splitFrom inSep acc s) i (len pre)) ->
    exists a w b,
      text = a ++ w ++ b /\ forallb not_space w = true
      /\ includes blocklist w = false /\ t = nameAt cl w (len a).
Proof.
  induction s as [|c s IH]; intros inSep acc pre i t Htext Hi Hacc Hin.
  - destruct inSep; cbn [splitFrom namesFrom] in Hin.
    + rewrite Hi in Hin. cbn [andb app] in Hin.
      replace (Nat.even (S i)) with true in Hin
        by (rewrite Nat.even_succ, <- Nat.negb_even, Hi; reflexivity).
      cbn [andb] in Hin.
      destruct (includes blocklist []) eqn:Hb; cbn [negb app] in Hin;
        [destruct Hin|].
      destruct Hin as [<- | []].
      exists (pre ++ acc), [], []. rewrite len_app.
      repeat split; try assumption.
      rewrite Htext, <- app_assoc. reflexivity.
    + rewrite Hi in Hin. cbn [andb negb] in Hin.
      destruct (includes blocklist acc) eqn:Hb; cbn [negb app] in Hin;
        [destruct Hin|].
      destruct Hin as [<- | []].
      exists pre, acc, []. auto.
  - cbn [splitFrom] in Hin.
    destruct (is_space c) eqn:Hc, inSep.
    + apply (IH true (acc ++ [c]) pre i t); try assumption.
      * rewrite Htext, <- app_assoc. reflexivity.
      * intros; discriminate.
    + cbn [namesFrom] in Hin. apply in_app_or in Hin as [Hin | Hin].
      * rewrite Hi in Hin. cbn [andb negb] in Hin.
        destruct (includes blocklist acc) eqn:Hb; cbn [negb] in Hin;
          [destruct Hin|].
        destruct Hin as [<- | []].
        exists pre, acc, (c :: s). auto.
      * rewrite <- len_app in Hin.
        apply (IH true [c] (pre ++ acc) (S i) t); try assumption.
        -- rewrite Htext, <- app_assoc. reflexivity.
        -- rewrite Nat.even_succ, <- Nat.negb_even, Hi. reflexivity.
        -- intros; discriminate.
    + cbn [namesFrom] in Hin. apply in_app_or in Hin as [Hin | Hin].
      * rewrite Hi in Hin. cbn [andb negb] in Hin. destruct Hin.
      * rewrite <- len_app in Hin.
        apply (IH false [c] (pre ++ acc) (S i) t); try assumption.
        -- rewrite Htext, <- app_assoc. reflexivity.
        -- rewrite Nat.even_succ, <- Nat.negb_even, Hi. reflexivity.
        -- intros _. cbn [forallb]. unfold not_space. rewrite Hc.
           reflexivity.
    + apply (IH false (acc ++ [c]) pre i t); try assumption.
      * rewrite Htext, <- app_assoc. reflexivity.
      * intros _. apply forallb_snoc; [auto|].
        unfold not_space. rewrite Hc. reflexivity.
Qed.

Lemma getClassNamesInClassList_inv t :
  In t (getClassNamesInClassList cl blocklist) ->
  exists a w b,
    text = a ++ w ++ b /\ forallb not_space w = true
    /\ includes blocklist w = false /\ t = nameAt cl w (len a).
Proof.
  unfold getClassNamesInClassList, splitWhitespace. intros Hin.
  apply (namesFrom_splitFrom text false [] [] 0%nat t); auto.
Qed.

End Flat.

(** ** The stacks of the variant-aware scan *)

Lemma pop_nil {A : Type} : pop (@nil A) = (None, []).
Proof. reflexivity. Qed.

Lemma pop_snoc {A : Type} (l : list A) (x : A) : pop (l ++ [x]) = (Some x, l).
Proof.
  unfold pop. rewrite rev_app_distr. simpl. rewrite rev_involutive.
  reflexivity.
Qed.

Lemma snoc_cases {A : Type} (l : list A) :
  l = [] \/ exists l' x, l = l' ++ [x].
Proof.
  destruct l as [|a l]; [left; reflexivity | right].
  destruct (exists_last (l := a :: l)) as (l' & x & E); [discriminate|].
  exists l', x. assumption.
Qed.

Lemma sumZ_app (a b : list Z) : sumZ (a ++ b) = sumZ a + sumZ b.
Proof. induction a as [|x a IH]; simpl; [reflexivity | rewrite IH; lia]. Qed.

Lemma sumZ_nonneg (l : list Z) : Forall (fun n => 0 <= n) l -> 0 <= sumZ l.
Proof. induction 1; simpl; lia. Qed.

Lemma fold_offset_ge (l : list jsstring) (a : Z) :
  a <= fold_left (fun acc item => acc + len item + 1) l a.
Proof.
  revert a. induction l as [|x l IH]; intros a; simpl; [lia|].
  pose proof (IH (a + len x + 1)). pose proof (len_nonneg x). lia.
Qed.

Lemma localStackOffset_nonneg (l : list jsstring) : 0 <= localStackOffset l.
Proof. apply fold_offset_ge. Qed.

Section Variants.

Variable cl : DocumentClassList.t.
Variable blocklist : list jsstring.

Let text := DocumentClassList.classList cl.

Lemma StackInv_initial : StackInv initialState.
Proof. split; [reflexivity | constructor]. Qed.

(** Closing a group never asks for a negative length. *)
Lemma closeGroup_total (st : State) (idx : Z) :
  StackInv st ->
  exists st', closeGroup cl blocklist st idx = Ok st' /\ StackInv st'.
Proof.
  intros [Hsum Hpos]. unfold closeGroup.
  destruct (snoc_cases (globalStackLengths st)) as [E | (l & n & E)];
    rewrite E in *.
  - rewrite pop_nil. eexists. split; [reflexivity|].
    split; cbn [globalStack globalStackLengths]; [assumption | constructor].
  - rewrite pop_snoc. rewrite sumZ_app in Hsum. simpl in Hsum.
    apply Forall_app in Hpos as [Hl Hn]. inversion Hn as [|? ? Hn0 _]; subst.
    pose proof (sumZ_nonneg l Hl) as Hs.
    destruct (n =? 0) eqn:En.
    + eexists. split; [reflexivity|].
      split; cbn [globalStack globalStackLengths]; [lia | assumption].
    + unfold setLength.
      replace (Z.of_nat (List.length (globalStack st)) - n <? 0)
        with false by lia.
      eexists. split; [reflexivity|].
      split; cbn [globalStack globalStackLengths]; [|assumption].
      rewrite length_firstn. lia.
Qed.

Lemma step_total (c : N) (idx : Z) (st : State) :
  StackInv st ->
  exists st', step cl blocklist c idx st = Ok st' /\ StackInv st'.
Proof.
  intros Hinv. unfold step.
  destruct (negb (searchingForStart st) && is_separator c).
  { eexists. split; [reflexivity | exact Hinv]. }
  destruct (negb (searchingForStart st) && N.eqb c COLON).
  { eexists. split; [reflexivity | exact Hinv]. }
  destruct (N.eqb c LPAREN).
  { eexists. split; [reflexivity|]. destruct Hinv as [Hsum Hpos].
    split; cbn [globalStack globalStackLengths].
    - rewrite length_app, sumZ_app. simpl. lia.
    - apply Forall_app. split; [assumption|].
      constructor; [lia | constructor]. }
  destruct (N.eqb c RPAREN).
  { apply closeGroup_total. assumption. }
  destruct (searchingForStart st && negb (is_separator c)).
  { eexists. split; [reflexivity | exact Hinv]. }
  eexists. split; [reflexivity | exact Hinv].
Qed.

(** The scan of any run of code units completes, from any state in
    which the recorded lengths add up. *)
Lemma scan_total (chars : jsstring) :
  forall idx st,
    StackInv st ->
    exists st', scan cl blocklist chars idx st = Ok st' /\ StackInv st'.
Proof.
  induction chars as [|c chars IH]; intros idx st Hinv; simpl.
  - eexists. split; [reflexivity | assumption].
  - destruct (step_total c idx st Hinv) as (st1 & -> & Hinv1).
    apply IH. assumption.
Qed.

Lemma pushClassInfo_emitted (st : State) (idx : Z) :
  TokInv cl blocklist idx st -> idx <= len text ->
  Forall (Emitted cl blocklist) (pushClassInfo cl blocklist st idx).
Proof.
  intros (Hw & Hc & Hall) Hidx. unfold pushClassInfo.
  destruct (includes blocklist _) eqn:Hb; cbn [negb]; [assumption|].
  apply Forall_app. split; [assumption|].
  constructor; [|constructor].
  exists st, idx. auto.
Qed.

Lemma step_tok (c : N) (idx : Z) (st st' : State) :
  TokInv cl blocklist idx st -> 0 <= idx < len text -> In c text ->
  step cl blocklist c idx st = Ok st' ->
  TokInv cl blocklist (idx + 1) st'.
Proof.
  intros Hinv Hidx Hc. pose proof Hinv as (Hw & Hcol & Hall).
  unfold step.
  destruct (negb (searchingForStart st) && is_separator c).
  { intros [= <-]. split; [|split]; cbn; [lia | auto |].
    apply pushClassInfo_emitted; [assumption | lia]. }
  destruct (negb (searchingForStart st) && N.eqb c COLON) eqn:E.
  { intros [= <-]. split; [|split]; cbn; [lia | | assumption].
    intros Hno. exfalso. apply Hno.
    apply andb_true_iff in E as [_ E]. apply N.eqb_eq in E. subst c.
    assumption. }
  destruct (N.eqb c LPAREN).
  { intros [= <-]. split; [|split]; cbn; [lia | auto | assumption]. }
  destruct (N.eqb c RPAREN).
  { unfold closeGroup.
    destruct (pop (globalStackLengths st)) as [lastLength lengths].
    assert (Hinfos :
      Forall (Emitted cl blocklist)
        (if negb (searchingForStart st)
         then pushClassInfo cl blocklist st idx else classInfo st)).
    { destruct (negb (searchingForStart st)); [|assumption].
      apply pushClassInfo_emitted; [assumption | lia]. }
    destruct (match lastLength with
              | Some n =>
                  if n =? 0 then Ok (globalStack st)
                  else setLength (globalStack st)
                         (Z.of_nat (List.length (globalStack st)) - n)
              | None => Ok (globalStack st)
              end); [|discriminate].
    intros [= <-]. split; [|split]; cbn; [lia | auto | assumption]. }
  destruct (searchingForStart st && negb (is_separator c)).
  { intros [= <-]. split; [|split]; cbn; [lia | auto | assumption]. }
  intros [= <-]. split; [|split]; [lia | auto | assumption].
Qed.

Lemma scan_tok (chars : jsstring) :
  forall idx st st',
    TokInv cl blocklist idx st -> 0 <= idx ->
    idx + len chars = len text ->
    (forall c, In c chars -> In c text) ->
    scan cl blocklist chars idx st = Ok st' ->
    TokInv cl blocklist (len text) st'.
Proof.
  induction chars as [|c chars IH]; intros idx st st' Hinv H0 Hlen Hsub.
  - rewrite len_nil in Hlen. simpl. intros [= <-].
    replace (len text) with idx by lia. assumption.
  - rewrite len_cons in Hlen. pose proof (len_nonneg chars). simpl.
    destruct (step cl blocklist c idx st) as [st1|] eqn:E; [|discriminate].
    apply (IH (idx + 1)); try lia.
    + apply (step_tok c idx st); try assumption; [lia|].
      apply Hsub. left. reflexivity.
    + intros x Hx. apply Hsub. right. assumption.
Qed.

Lemma TokInv_initial : TokInv cl blocklist 0 initialState.
Proof. split; [|split]; cbn; [lia | auto | constructor]. Qed.

(** The variant-aware tokenizer returns, and what it returns are entries
    made by [pushClassInfo]. *)
Lemma getClassNamesAndVariantsInClassList_emitted :
  exists toks,
    getClassNamesAndVariantsInClassList cl blocklist = Ok toks
    /\ Forall (Emitted cl blocklist) toks.
Proof.
  unfold getClassNamesAndVariantsInClassList.
  destruct (scan_total text 0 initialState StackInv_initial)
    as (st & Hscan & _).
  fold text. rewrite Hscan. eexists. split; [reflexivity|].
  assert (Hinv : TokInv cl blocklist (len text) st).
  { apply (scan_tok text 0 initialState); auto using TokInv_initial; lia. }
  destruct (negb (searchingForStart st)).
  - apply pushClassInfo_emitted; [assumption | lia].
  - apply Hinv.
Qed.

End Variants.

(** * The variant-aware tokenizer on the examples of the specification *)

(** C4: on [hover:(bg-red-500 focus:text-white)] with an empty blocklist
    the variant-aware tokenizer returns exactly two class names, in this
    order: [bg-red-500] with the variants [hover], then [text-white] with
    the variants [hover] and [focus]. *)
Theorem C4_group_example (range : Range) (important : option bool) :
  exists toks,
    getClassNamesAndVariantsInClassList
      (classListOf (lit "hover:(bg-red-500 focus:text-white)") range important)
      []
    = Ok toks
    /\ map nameAndVariants toks
       = [ (lit "bg-red-500", Some [lit "hover"]);
           (lit "text-white", Some [lit "hover"; lit "focus"]) ].
Proof.
  set (r := getClassNamesAndVariantsInClassList _ _).
  vm_compute in r. subst r.
  eexists. split; [reflexivity|]. vm_compute. reflexivity.
Qed.

(** C6: on the unterminated group [hover:(bg-red-500] with an empty
    blocklist the variant-aware tokenizer returns normally, with exactly one
    class name: the word still open at the end of the input, [bg-red-500],
    with the variants then active, [hover]. *)
Theorem C6_unterminated_group (range : Range) (important : option bool) :
  exists toks,
    getClassNamesAndVariantsInClassList
      (classListOf (lit "hover:(bg-red-500") range important) []
    = Ok toks
    /\ map nameAndVariants toks = [ (lit "bg-red-500", Some [lit "hover"]) ].
Proof.
  set (r := getClassNamesAndVariantsInClassList _ _).
  vm_compute in r. subst r.
  eexists. split; [reflexivity|]. vm_compute. reflexivity.
Qed.

(** * Totality of the variant-aware tokenizer *)

(** C7: the variant-aware tokenizer completes normally on every class list
    and every blocklist, whatever parentheses the text has; so does the scan
    of any run of code units, and the recorded group lengths keep adding up
    to the length of the global stack, which therefore is never asked to
    become negative; a closing parenthesis met while no group length is
    recorded leaves the global stack and the empty stack of lengths as they
    are. *)
Theorem C7_total (cl : DocumentClassList.t) (blocklist : list jsstring) :
  (exists toks, getClassNamesAndVariantsInClassList cl blocklist = Ok toks)
  /\ (forall chars,
        exists st,
          scan cl blocklist chars 0 initialState = Ok st
          /\ Z.of_nat (List.length (globalStack st))
             = sumZ (globalStackLengths st))
  /\ (forall searching stack locals infos word idx,
        let st :=
          {| searchingForStart := searching;
             globalStack := stack;
             globalStackLengths := [];
             localStack := locals;
             classInfo := infos;
             wordIndex := word |} in
        step cl blocklist RPAREN idx st
        = Ok {| searchingForStart := true;
                globalStack := stack;
                globalStackLengths := [];
                localStack := [];
                classInfo :=
                  if negb searching then pushClassInfo cl blocklist st idx
                  else infos;
                wordIndex := word |}).
Proof.
  split; [|split].
  - destruct (getClassNamesAndVariantsInClassList_emitted cl blocklist)
      as (toks & H & _).
    exists toks. assumption.
  - intros chars.
    destruct (scan_total cl blocklist chars 0 initialState StackInv_initial)
      as (st & H & Hinv & _).
    exists st. split; assumption.
  - intros searching stack locals infos word idx st. subst st.
    unfold step. cbn [searchingForStart].
    destruct searching; reflexivity.
Qed.

(** * The blocklist *)

(** C9: no class name returned by either tokenizer is on the blocklist,
    wherever it stands in the class list. *)
Theorem C9_blocklist (cl : DocumentClassList.t) (blocklist : list jsstring) :
  Forall (fun t => ~ In (DocumentClassName.className t) blocklist)
    (getClassNamesInClassList cl blocklist)
  /\ exists toks,
       getClassNamesAndVariantsInClassList cl blocklist = Ok toks
       /\ Forall (fun t => ~ In (DocumentClassName.className t) blocklist)
            toks.
Proof.
  split.
  - apply Forall_forall. intros t Hin.
    apply getClassNamesInClassList_inv in Hin
      as (a & w & b & _ & _ & Hb & ->).
    cbn. intros Hw. apply includes_In in Hw. congruence.
  - destruct (getClassNamesAndVariantsInClassList_emitted cl blocklist)
      as (toks & H & Hall).
    exists toks. split; [assumption|].
    eapply Forall_impl; [|exact Hall].
    intros t (st & idx & _ & _ & _ & Hb & ->) Hin.
    apply includes_In in Hin. congruence.
Qed.

(** * Offsets outside the text *)

(** C8, as the code has it: [indexToPosition] returns a position for every
    text and every offset; an offset below 0 or above the length of the
    text gives the first position, line 0 and character 0, which is the
    position of offset 0; an offset from 0 to the length gives the number of
    newlines before it as line and the number of code units since the last
    of them as character, so that the length itself gives the position just
    past the last code unit. *)
Theorem C8_indexToPosition (text : jsstring) (offset : Z) :
  indexToPosition text offset
  = (if (offset <? 0) || (len text <? offset) then origin
     else {| line := newlines (before text offset);
             character := columnAfter (before text offset) 0 |})
  /\ indexToPosition text 0 = origin
  /\ positionToIndex text (indexToPosition text (len text)) = len text.
Proof.
  pose proof (len_nonneg text) as Hl. split; [|split].
  - destruct ((offset <? 0) || (len text <? offset)) eqn:E.
    + apply indexToPosition_out_of_range. lia.
    + apply indexToPosition_in_range. lia.
  - rewrite indexToPosition_in_range by lia. reflexivity.
  - apply positionToIndex_indexToPosition. lia.
Qed.

(** C8, as it is stated, fails: an offset above the length of the text does
    not give the position of the length. *)
Lemma C8_not_clamped_above :
  indexToPosition (lit "ab") 3 <> indexToPosition (lit "ab") (len (lit "ab")).
Proof. vm_compute. discriminate. Qed.

(** * Ranges of the class names *)

Lemma nameAt_lines (cl : DocumentClassList.t) (a w b : jsstring) :
  DocumentClassList.classList cl = a ++ w ++ b ->
  forallb not_space w = true ->
  line (start (DocumentClassName.relativeRange (nameAt cl w (len a))))
  = line (end_ (DocumentClassName.relativeRange (nameAt cl w (len a)))).
Proof.
  intros Htext Hw. cbn. rewrite Htext.
  pose proof (len_nonneg a). pose proof (len_nonneg w).
  pose proof (len_nonneg b).
  apply line_same; rewrite ?len_app; try lia.
  rewrite substring_middle. apply not_space_no_newline. assumption.
Qed.

Lemma emitted_lines (cl : DocumentClassList.t) (blocklist : list jsstring)
    (t : DocumentClassName.t) :
  Emitted cl blocklist t ->
  0 <= line (start (DocumentClassName.relativeRange t))
       <= line (end_ (DocumentClassName.relativeRange t))
  /\ DocumentClassName.range t
     = absoluteRange (DocumentClassList.range cl)
         (start (DocumentClassName.relativeRange t))
         (end_ (DocumentClassName.relativeRange t)).
Proof.
  intros (st & idx & Hw & Hidx & _ & _ & ->). split; [|reflexivity].
  split; [apply line_nonneg|].
  cbn. set (text := DocumentClassList.classList cl) in *.
  rewrite len_substring by lia.
  pose proof (localStackOffset_nonneg (localStack st)) as Hoff.
  set (off := localStackOffset (localStack st)) in *.
  destruct (Z_lt_dec (idx - (idx - wordIndex st) - off) 0) as [Hneg | Hge].
  - rewrite (indexToPosition_out_of_range text (idx - _ - off)) by lia.
    apply line_nonneg.
  - apply line_monotone; lia.
Qed.

Lemma absoluteRange_end (enclosing : Range) (p q : Position) :
  shiftedOnLine0 enclosing q (end_ (absoluteRange enclosing p q)).
Proof.
  unfold shiftedOnLine0. cbn. destruct (Z.eqb_spec (line q) 0); lia.
Qed.

(** Where the code keeps the rule of composition. For every class list
    and every class name returned for it by either tokenizer, the lines of
    the local range are counted from the line of the enclosing start, and
    the end of the range follows the rule: its character is shifted by the
    column of the enclosing start on line 0 and kept on a later line. So
    does a start that is on the line of the end or on a later line; the
    class names of [getClassNamesInClassList] always start and end on one
    line. *)
Lemma composition_rule_kept (cl : DocumentClassList.t)
    (blocklist : list jsstring) (t : DocumentClassName.t) :
  let enclosing := DocumentClassList.range cl in
  let rel := DocumentClassName.relativeRange t in
  let abs := DocumentClassName.range t in
  (In t (getClassNamesInClassList cl blocklist) ->
     line (start abs) = line (start enclosing) + line (start rel)
     /\ line (end_ abs) = line (start enclosing) + line (end_ rel)
     /\ line (start rel) = line (end_ rel)
     /\ shiftedOnLine0 enclosing (start rel) (start abs)
     /\ shiftedOnLine0 enclosing (end_ rel) (end_ abs))
  /\ (forall toks,
        getClassNamesAndVariantsInClassList cl blocklist = Ok toks ->
        In t toks ->
        line (start abs) = line (start enclosing) + line (start rel)
        /\ line (end_ abs) = line (start enclosing) + line (end_ rel)
        /\ line (start rel) <= line (end_ rel)
        /\ shiftedOnLine0 enclosing (end_ rel) (end_ abs)
        /\ (line (start rel) = line (end_ rel) \/ line (start rel) <> 0 ->
            shiftedOnLine0 enclosing (start rel) (start abs))).
Proof.
  intros enclosing rel abs. split.
  - intros Hin.
    apply getClassNamesInClassList_inv in Hin
      as (a & w & b & Htext & Hw & _ & E).
    pose proof (nameAt_lines cl a w b Htext Hw) as Hline.
    subst t. subst rel abs enclosing.
    split; [reflexivity|]. split; [reflexivity|]. split; [assumption|].
    split; [|apply absoluteRange_end].
    unfold shiftedOnLine0. cbn in *. rewrite <- Hline.
    destruct (Z.eqb_spec
                (line
                   (indexToPosition (DocumentClassList.classList cl) (len a)))
                0); lia.
  - intros toks Hrun Hin.
    destruct (getClassNamesAndVariantsInClassList_emitted cl blocklist)
      as (toks' & Hrun' & Hall).
    rewrite Hrun in Hrun'. injection Hrun' as <-.
    rewrite Forall_forall in Hall. specialize (Hall t Hin).
    destruct (emitted_lines cl blocklist t Hall) as [[H0 Hle] Habs].
    subst rel abs enclosing. rewrite Habs.
    split; [reflexivity|]. split; [reflexivity|]. split; [assumption|].
    split; [apply absoluteRange_end|].
    unfold shiftedOnLine0. cbn.
    destruct (Z.eqb_spec (line (end_ (DocumentClassName.relativeRange t))) 0);
      split; intros; lia.
Qed.

(** C1 fails on the code. In [a:], a newline and [b], found at line 5,
    character 10, the class name [b] of the variant-aware tokenizer has the
    local range from line 0, character 1 to line 1, character 1. Its start
    is on line 0 of the class list, where the rule of composition adds the
    column of the enclosing start and gives character 11; the code leaves
    it at character 1, because it adds the column to the start when the END
    of the local range is on line 0. *)
Theorem C1_start_not_shifted :
  exists t,
    getClassNamesAndVariantsInClassList brokenAfterColon [] = Ok [t]
    /\ DocumentClassName.className t = lit "b"
    /\ DocumentClassName.relativeRange t
       = {| start := {| line := 0; character := 1 |};
            end_ := {| line := 1; character := 1 |} |}
    /\ DocumentClassName.range t
       = {| start := {| line := 5; character := 1 |};
            end_ := {| line := 6; character := 1 |} |}
    /\ ~ shiftedOnLine0 (DocumentClassList.range brokenAfterColon)
           (start (DocumentClassName.relativeRange t))
           (start (DocumentClassName.range t)).
Proof.
  eexists. split; [reflexivity|]. split; [reflexivity|].
  split; [reflexivity|]. split; [reflexivity|].
  intros [H _]. specialize (H eq_refl). vm_compute in H. discriminate H.
Qed.

(** * The text of a local range *)












Section Chain.

Variable cl : DocumentClassList.t.
Variable blocklist : list jsstring.

Let text := DocumentClassList.classList cl.






End Chain.





(** * Empty and blank class lists *)

Lemma separator_not_paren (c : N) :
  is_separator c = true -> N.eqb c LPAREN = false /\ N.eqb c RPAREN = false.
Proof.
  intros H. split.
  - destruct (N.eqb_spec c LPAREN) as [-> | _]; [discriminate H | reflexivity].
  - destruct (N.eqb_spec c RPAREN) as [-> | _]; [discriminate H | reflexivity].
Qed.

(** While it searches for a start, the scan steps over separators. *)
Lemma scan_separators (cl : DocumentClassList.t) (blocklist : list jsstring)
    (chars : jsstring) :
  forall idx st,
    forallb is_separator chars = true -> searchingForStart st = true ->
    scan cl blocklist chars idx st = Ok st.
Proof.
  induction chars as [|c chars IH]; intros idx st Hall Hs; simpl;
    [reflexivity|].
  simpl in Hall. apply andb_true_iff in Hall as [Hc Hall].
  destruct (separator_not_paren c Hc) as [Hl Hr].
  unfold step. rewrite Hs, Hc, Hl, Hr. cbn [negb andb].
  apply IH; assumption.
Qed.

Lemma indexToPosition_0 (str : jsstring) : indexToPosition str 0 = origin.
Proof.
  pose proof (len_nonneg str).
  rewrite indexToPosition_in_range by lia. reflexivity.
Qed.

(** When the empty string is not on the blocklist,
    [getClassNamesInClassList] returns exactly one class name for the empty
    class list, the empty name with the empty range at line 0, character 0;
    for a class list that is a non-empty run of [\s] it returns exactly two,
    both with the empty name and an empty range, the first before the run,
    at line 0, character 0, and the second after it, at the end of the
    text. The variant-aware tokenizer returns no class name for the empty
    class list and none for a run of its separators. *)
Lemma empty_names_of_blank_class_lists (range : Range)
    (important : option bool) (blocklist : list jsstring) :
  ~ In [] blocklist ->
  (exists t,
     getClassNamesInClassList (classListOf [] range important) blocklist = [t]
     /\ DocumentClassName.className t = []
     /\ DocumentClassName.relativeRange t
        = {| start := origin; end_ := origin |}
     /\ start (DocumentClassName.range t) = end_ (DocumentClassName.range t))
  /\ (forall ws,
        ws <> [] -> forallb is_space ws = true ->
        exists t1 t2,
          getClassNamesInClassList (classListOf ws range important) blocklist
          = [t1; t2]
          /\ DocumentClassName.className t1 = []
          /\ DocumentClassName.className t2 = []
          /\ DocumentClassName.relativeRange t1
             = {| start := origin; end_ := origin |}
          /\ DocumentClassName.relativeRange t2
             = {| start := indexToPosition ws (len ws);
                  end_ := indexToPosition ws (len ws) |}
          /\ positionToIndex ws (indexToPosition ws (len ws)) = len ws
          /\ start (DocumentClassName.range t1)
             = end_ (DocumentClassName.range t1)
          /\ start (DocumentClassName.range t2)
             = end_ (DocumentClassName.range t2))
  /\ getClassNamesAndVariantsInClassList (classListOf [] range important)
       blocklist
     = Ok []
  /\ (forall ws,
        forallb is_separator ws = true ->
        getClassNamesAndVariantsInClassList (classListOf ws range important)
          blocklist
        = Ok []).
Proof.
  intros Hnot.
  assert (Hb : includes blocklist [] = false).
  { destruct (includes blocklist []) eqn:E; [|reflexivity].
    apply includes_In in E. contradiction. }
  split; [|split; [|split]].
  - unfold getClassNamesInClassList. cbn. rewrite Hb. cbn.
    eexists. repeat split.
  - intros [|c ws] Hne Hws; [contradiction|].
    cbn [forallb] in Hws. apply andb_true_iff in Hws as [Hc Hws].
    unfold getClassNamesInClassList, splitWhitespace.
    cbn [classListOf DocumentClassList.classList splitFrom].
    rewrite Hc, (splitFrom_spaces ws [c] Hws).
    cbn [namesFrom Nat.even andb app]. rewrite Hb. cbn [negb app].
    rewrite len_nil, !Z.add_0_l.
    change ([c] ++ ws) with (c :: ws).
    exists (nameAt (classListOf (c :: ws) range important) [] 0),
           (nameAt (classListOf (c :: ws) range important) [] (len (c :: ws))).
    pose proof (len_nonneg (c :: ws)).
    split; [reflexivity|]. split; [reflexivity|]. split; [reflexivity|].
    unfold nameAt, absoluteRange.
    cbn [DocumentClassName.className DocumentClassName.relativeRange
         DocumentClassName.range classListOf DocumentClassList.classList
         DocumentClassList.range start end_].
    rewrite len_nil, !Z.add_0_r, !indexToPosition_0.
    split; [reflexivity|]. split; [reflexivity|].
    split; [apply positionToIndex_indexToPosition; lia|].
    split; reflexivity.
  - reflexivity.
  - intros ws Hws. unfold getClassNamesAndVariantsInClassList.
    cbn [classListOf DocumentClassList.classList].
    rewrite scan_separators by (assumption || reflexivity).
    reflexivity.
Qed.

(** C10 fails on the code. The class list that is the one code unit
    U+2003 is a run of [\s]. For it [getClassNamesInClassList] returns two
    empty names, as the claim says. The variant-aware tokenizer, which by
    the claim returns nothing for such a class list, returns one class
    name, the code unit U+2003 itself: [SEPARATOR_CHARS] has none of
    U+2001 to U+2009. *)
Theorem C10_em_space_class_list :
  forallb is_space (DocumentClassList.classList emSpaceOnly) = true
  /\ is_separator 8195 = false
  /\ namesOf (getClassNamesInClassList emSpaceOnly []) = [[]; []]
  /\ exists t,
       getClassNamesAndVariantsInClassList emSpaceOnly [] = Ok [t]
       /\ DocumentClassName.className t = [8195%N]
       /\ DocumentClassName.variants t = Some [].
Proof.
  repeat (split; [reflexivity|]). eexists. repeat split.
Qed.

(** * Helper functions *)

(** The path of a helper function depends on the captured argument only:
    wherever the example stands in a style sheet, its path is
    [colors.red.500]. *)
Lemma helperOfMatch_path (text : jsstring) (range : option Range)
    (m : RegExpMatch) :
  groupOr "path" m = lit "'colors.red.500' / 50, red" ->
  path (helperOfMatch text range m) = lit "colors.red.500".
Proof.
  intros H. unfold helperOfMatch. cbn [path]. rewrite H.
  vm_compute. reflexivity.
Qed.

(** What the scanner returns for the style sheet of the example. *)
Lemma findHelperFunctionsInRange_sheet :
  findHelperFunctionsInRange sheet None
  = [ {| helper := theme;
         path := lit "colors.red.500";
         ranges :=
           {| full :=
                {| start := {| line := 0; character := 18 |};
                   end_ := {| line := 0; character := 44 |} |};
              path_ :=
                {| start := {| line := 0; character := 19 |};
                   end_ := {| line := 0; character := 33 |} |} |} |} ].
Proof. vm_compute. reflexivity. Qed.

(** C5, as the code has it: in the style sheet
    [.a { color: theme('colors.red.500' / 50, red); }] the scanner finds
    exactly one helper function, a [theme] one with the path
    [colors.red.500]: the argument is cut at its first comma outside quotes
    (index 21 of the argument), which keeps the fallback out of the path, the
    quotes are stripped and the modifier [/ 50] is removed. The range of the
    path delimits [colors.red.500]. The full range delimits the whole
    argument as the expression captured it, with the modifier and with the
    fallback: ['colors.red.500' / 50, red]. *)
Theorem C5_helper_example :
  exists h,
    findHelperFunctionsInRange sheet None = [h]
    /\ helper h = theme
    /\ path h = lit "colors.red.500"
    /\ getFirstCommaIndex (lit "'colors.red.500' / 50, red") = Some 21
    /\ textInRange sheet (path_ (ranges h)) = lit "colors.red.500"
    /\ textInRange sheet (full (ranges h)) = lit "'colors.red.500' / 50, red".
Proof.
  eexists. split; [apply findHelperFunctionsInRange_sheet|].
  repeat split; vm_compute; reflexivity.
Qed.

(** C5, as it is stated, fails: the fallback is not excluded entirely, the
    full range of the helper function reaches over its comma. *)
Lemma C5_fallback_in_full_range :
  ~ exists h,
      findHelperFunctionsInRange sheet None = [h]
      /\ path h = lit "colors.red.500"
      /\ ~ In COMMA (textInRange sheet (full (ranges h))).
Proof.
  intros (h & Hh & _ & Hno).
  rewrite findHelperFunctionsInRange_sheet in Hh. injection Hh as <-.
  apply Hno. vm_compute. tauto.
Qed.

(** * The two tokenizers on class lists without variants *)

(** [\s] is [SEPARATOR_CHARS] and the code units U+2001 to U+2009. *)
Lemma space_separator (c : N) :
  is_space c = is_separator c || in_2001_2009 c.
Proof.
  unfold is_space, is_separator, in_2001_2009, SEPARATOR_CHARS.
  cbn [existsb].
  repeat match goal with
         | |- context [N.eqb c ?k] =>
             destruct (N.eqb_spec c k); [subst; reflexivity|]
         end.
  destruct (N.leb_spec 9 c), (N.leb_spec c 13), (N.leb_spec 8192 c),
    (N.leb_spec c 8202), (N.leb_spec 8193 c), (N.leb_spec c 8201);
    cbn; try reflexivity; lia.
Qed.

Lemma plain_inv (c : N) :
  plain c = true ->
  N.eqb c LPAREN = false /\ N.eqb c RPAREN = false /\ N.eqb c COLON = false
  /\ is_space c = is_separator c.
Proof.
  unfold plain. intros H.
  apply andb_true_iff in H as [H H4]. apply andb_true_iff in H as [H H3].
  apply andb_true_iff in H as [H1 H2].
  apply negb_true_iff in H1, H2, H3, H4.
  rewrite space_separator, H4, orb_false_r. auto.
Qed.

Lemma namesOf_namesFrom (cl : DocumentClassList.t) (blocklist : list jsstring)
    (parts : list jsstring) :
  forall i index,
    namesOf (namesFrom cl blocklist parts i index)
    = evenNames blocklist parts i.
Proof.
  induction parts as [|part parts IH]; intros i index; [reflexivity|].
  cbn [namesFrom evenNames]. unfold namesOf in *. rewrite map_app, IH.
  destruct (Nat.even i && negb (includes blocklist part)); reflexivity.
Qed.

Lemma namesOf_pushClassInfo (cl : DocumentClassList.t)
    (blocklist : list jsstring) (st : State) (idx : Z) :
  namesOf (pushClassInfo cl blocklist st idx)
  = namesOf (classInfo st)
    ++ (let name :=
          substring (DocumentClassList.classList cl) (wordIndex st) idx in
        if negb (includes blocklist name) then [name] else []).
Proof.
  unfold pushClassInfo, namesOf. cbn.
  destruct (includes blocklist _); cbn [negb].
  - rewrite app_nil_r. reflexivity.
  - rewrite map_app. reflexivity.
Qed.

Lemma substring_one (pre : jsstring) (c : N) (s : jsstring) :
  substring (pre ++ c :: s) (len pre) (len pre + 1) = [c].
Proof. apply (substring_middle pre [c] s). Qed.

Lemma nonEmpty_true (s : jsstring) : s <> [] -> nonEmpty s = true.
Proof. destruct s; [contradiction | reflexivity]. Qed.

Section Agreement.

Variable cl : DocumentClassList.t.
Variable blocklist : list jsstring.

Let text := DocumentClassList.classList cl.

(** The scan and the split read the rest [s] of a class list without
    variants in step: the names that the scan adds are the non-empty names
    that the loop over the parts keeps. *)
Lemma scan_split (s : jsstring) :
  forall (pre : jsstring) (st : State) (inSep : bool) (acc : jsstring)
         (i : nat),
    text = pre ++ s ->
    forallb plain s = true ->
    Nat.even i = negb inSep ->
    (if searchingForStart st then inSep = true \/ acc = []
     else inSep = false /\ acc <> []
          /\ 0 <= wordIndex st <= len pre
          /\ acc = substring text (wordIndex st) (len pre)) ->
    exists st',
      scan cl blocklist s (len pre) st = Ok st'
      /\ namesOf (if negb (searchingForStart st')
                  then pushClassInfo cl blocklist st' (len text)
                  else classInfo st')
         = namesOf (classInfo st)
           ++ filter nonEmpty
                (evenNames blocklist (splitFrom inSep acc s) i).
Proof.
  induction s as [|c s IH]; intros pre st inSep acc i Htext Hplain Hi Hst.
  - rewrite app_nil_r in Htext. exists st. split; [reflexivity|].
    destruct (searchingForStart st) eqn:Hs; cbn [negb].
    + assert (E : filter nonEmpty
                    (evenNames blocklist (splitFrom inSep acc []) i) = []).
      { destruct inSep; cbn [splitFrom evenNames].
        - rewrite Hi. cbn [andb app].
          destruct (Nat.even (S i) && negb (includes blocklist []));
            reflexivity.
        - destruct Hst as [Hst | ->]; [discriminate|].
          destruct (Nat.even i && negb (includes blocklist []));
            reflexivity. }
      rewrite E, app_nil_r. reflexivity.
    + destruct Hst as (-> & Hne & Hw & Hacc).
      rewrite namesOf_pushClassInfo. fold text. cbv zeta.
      replace (len text) with (len pre) by (rewrite Htext; reflexivity).
      rewrite <- Hacc. f_equal.
      cbn [splitFrom evenNames]. rewrite Hi. cbn [negb andb].
      destruct (includes blocklist acc); cbn [negb app filter];
        [reflexivity|].
      rewrite (nonEmpty_true acc Hne). reflexivity.
  - cbn [forallb] in Hplain. apply andb_true_iff in Hplain as [Hc Hplain].
    destruct (plain_inv c Hc) as (Hl & Hr & Hcolon & Hspace).
    assert (Htext' : text = (pre ++ [c]) ++ s).
    { rewrite Htext, <- app_assoc. reflexivity. }
    assert (Hlen : len (pre ++ [c]) = len pre + 1).
    { rewrite len_app, len_cons, len_nil. lia. }
    pose proof (len_nonneg pre) as Hpre.
    cbn [scan splitFrom]. unfold step. rewrite Hl, Hr, Hcolon, Hspace.
    destruct (searchingForStart st) eqn:Hs; cbn [negb andb].
    + destruct (is_separator c) eqn:Hsep; cbn [negb].
      * rewrite <- Hlen. destruct inSep.
        -- apply IH; try assumption. rewrite Hs. left. reflexivity.
        -- destruct Hst as [Hst | ->]; [discriminate|].
           destruct (IH (pre ++ [c]) st true [c] (S i)) as (st' & H1 & H2);
             try assumption.
           ++ rewrite Nat.even_succ, <- Nat.negb_even, Hi. reflexivity.
           ++ rewrite Hs. left. reflexivity.
           ++ exists st'. split; [assumption|]. rewrite H2. f_equal.
              cbn [evenNames]. rewrite filter_app.
              destruct (Nat.even i && negb (includes blocklist []));
                reflexivity.
      * rewrite <- Hlen.
        set (st1 := {| searchingForStart := false;
                       globalStack := globalStack st;
                       globalStackLengths := globalStackLengths st;
                       localStack := localStack st;
                       classInfo := classInfo st;
                       wordIndex := len pre |}).
        assert (Hst1 : if searchingForStart st1 then false = true \/ [c] = []
                       else false = false /\ [c] <> []
                            /\ 0 <= wordIndex st1 <= len (pre ++ [c])
                            /\ [c] = substring text (wordIndex st1)
                                       (len (pre ++ [c]))).
        { cbn. split; [reflexivity|]. split; [discriminate|].
          split; [lia|]. rewrite Hlen, Htext, substring_one. reflexivity. }
        destruct inSep.
        -- destruct (IH (pre ++ [c]) st1 false [c] (S i))
             as (st' & H1 & H2); try assumption.
           ++ rewrite Nat.even_succ, <- Nat.negb_even, Hi. reflexivity.
           ++ exists st'. split; [assumption|]. rewrite H2. cbn [evenNames].
              rewrite Hi. reflexivity.
        -- destruct Hst as [Hst | ->]; [discriminate|].
           cbn [app].
           destruct (IH (pre ++ [c]) st1 false [c] i)
             as (st' & H1 & H2); try assumption.
           exists st'. split; assumption.
    + destruct Hst as (-> & Hne & Hw & Hacc).
      destruct (is_separator c) eqn:Hsep.
      * rewrite <- Hlen.
        set (st1 := {| searchingForStart := true;
                       globalStack := globalStack st;
                       globalStackLengths := globalStackLengths st;
                       localStack := [];
                       classInfo := pushClassInfo cl blocklist st (len pre);
                       wordIndex := wordIndex st |}).
        destruct (IH (pre ++ [c]) st1 true [c] (S i)) as (st' & H1 & H2);
          try assumption.
        -- rewrite Nat.even_succ, <- Nat.negb_even, Hi. reflexivity.
        -- cbn. left. reflexivity.
        -- exists st'. split; [assumption|]. rewrite H2.
           subst st1. cbn [classInfo]. rewrite namesOf_pushClassInfo.
           fold text. cbv zeta. rewrite <- Hacc, <- app_assoc. f_equal.
           cbn [evenNames]. rewrite Hi. cbn [negb andb].
           rewrite filter_app. f_equal.
           destruct (includes blocklist acc); cbn [negb filter];
             [reflexivity|].
           rewrite (nonEmpty_true acc Hne). reflexivity.
      * rewrite <- Hlen. apply IH; try assumption.
        rewrite Hs. split; [reflexivity|].
        split; [destruct acc; discriminate|]. split; [lia|].
        rewrite Hlen.
        rewrite (substring_split text (wordIndex st) (len pre) (len pre + 1)).
        -- rewrite <- Hacc. f_equal. rewrite Htext, substring_one.
           reflexivity.
        -- lia.
        -- rewrite Htext, len_app, len_cons.
           pose proof (len_nonneg s). lia.
Qed.

End Agreement.

(** Where the two tokenizers agree: for every class list without
    parentheses, colons and code units from U+2001 to U+2009, and every
    blocklist, the variant-aware tokenizer returns, in the same order, the
    class names of [getClassNamesInClassList] that are not empty. Outside
    U+2001 to U+2009 the two tokenizers have the same separators: a code
    unit is in [\s] exactly when it is in [SEPARATOR_CHARS]. *)
Lemma same_names_outside_2001_2009 (cl : DocumentClassList.t)
    (blocklist : list jsstring) :
  forallb plain (DocumentClassList.classList cl) = true ->
  (exists toks,
     getClassNamesAndVariantsInClassList cl blocklist = Ok toks
     /\ namesOf toks
        = filter nonEmpty (namesOf (getClassNamesInClassList cl blocklist)))
  /\ (forall c, in_2001_2009 c = false -> is_space c = is_separator c).
Proof.
  intros Hplain. split.
  2: { intros c Hc. rewrite space_separator, Hc. apply orb_false_r. }
  destruct (scan_split cl blocklist (DocumentClassList.classList cl)
              [] initialState false [] 0%nat)
    as (st & Hscan & Hnames); try reflexivity; try assumption.
  { cbn. right. reflexivity. }
  unfold getClassNamesAndVariantsInClassList.
  rewrite len_nil in Hscan. rewrite Hscan.
  eexists. split; [reflexivity|].
  rewrite Hnames. cbn [classInfo initialState namesOf map app].
  unfold getClassNamesInClassList, splitWhitespace.
  rewrite namesOf_namesFrom. reflexivity.
Qed.

(** With [flex] on the blocklist, both tokenizers find [mt-2] in the class
    list with blanks around, and [getClassNamesInClassList] finds an empty
    name before and after it. *)
Lemma same_names_blanks_around :
  exists toks,
    getClassNamesAndVariantsInClassList blanksAround [lit "flex"] = Ok toks
    /\ namesOf toks = [lit "mt-2"]
    /\ namesOf (getClassNamesInClassList blanksAround [lit "flex"])
       = [[]; lit "mt-2"; []].
Proof.
  destruct (proj1 (same_names_outside_2001_2009 blanksAround [lit "flex"]
                     eq_refl))
    as (toks & Hrun & Hnames).
  exists toks. split; [exact Hrun|]. split; [|reflexivity].
  rewrite Hnames. reflexivity.
Qed.

(** The empty names of [getClassNamesInClassList] are names that the
    variant-aware tokenizer never has: for the empty class list and the
    empty blocklist the one returns the empty name and the other no
    name. *)
Lemma empty_class_list_names :
  exists toks,
    getClassNamesAndVariantsInClassList emptyClassList [] = Ok toks
    /\ In [] (namesOf (getClassNamesInClassList emptyClassList []))
    /\ ~ In [] (namesOf toks).
Proof.
  eexists. split; [reflexivity|]. split; [left; reflexivity | intros []].
Qed.

(** C3 fails on the code. The code unit U+2003 is in [\s], and
    [SEPARATOR_CHARS] lists U+2000 and U+200A and none of U+2001 to U+2009.
    So in [a], U+2003, [b], a class list without parentheses and colons,
    [getClassNamesInClassList] finds the two names [a] and [b] and the
    variant-aware tokenizer finds one name, [a], U+2003, [b]: the names
    differ, and the variant-aware tokenizer does not take this code unit
    of the Unicode whitespace class for a separator. *)
Theorem C3_em_space_is_no_separator :
  is_space 8195 = true
  /\ is_separator 8192 = true /\ is_separator 8202 = true
  /\ is_separator 8195 = false
  /\ forallb
       (fun c =>
          negb (N.eqb c LPAREN) && negb (N.eqb c RPAREN)
          && negb (N.eqb c COLON))
       (DocumentClassList.classList emSpaced) = true
  /\ namesOf (getClassNamesInClassList emSpaced []) = [lit "a"; lit "b"]
  /\ exists toks,
       getClassNamesAndVariantsInClassList emSpaced [] = Ok toks
       /\ namesOf toks = [lit "a" ++ [8195%N] ++ lit "b"].
Proof.
  repeat (split; [reflexivity|]). eexists. split; reflexivity.
Qed.

(** * Further properties *)

(** ** The blocklist only removes class names *)

Lemma namesFrom_filter (cl : DocumentClassList.t) (blocklist : list jsstring)
    (parts : list jsstring) :
  forall i index,
    namesFrom cl blocklist parts i index
    = filter (offBlocklist blocklist) (namesFrom cl [] parts i index).
Proof.
  induction parts as [|part parts IH]; intros i index; [reflexivity|].
  cbn [namesFrom]. rewrite filter_app, <- IH. f_equal.
  cbn [includes existsb negb]. rewrite andb_true_r.
  destruct (Nat.even i); cbn [andb]; [|reflexivity].
  cbn [filter]. unfold offBlocklist at 1.
  cbn [nameAt DocumentClassName.className].
  destruct (includes blocklist part); reflexivity.
Qed.

(** X1: the class names that [getClassNamesInClassList] returns under a
    blocklist are the ones it returns under the empty blocklist, without
    those that have their name on the blocklist, in the same order and with
    the same ranges. *)
Theorem getClassNamesInClassList_blocklist (cl : DocumentClassList.t)
    (blocklist : list jsstring) :
  getClassNamesInClassList cl blocklist
  = filter (offBlocklist blocklist) (getClassNamesInClassList cl []).
Proof. apply namesFrom_filter. Qed.

(** The scan of one text under two blocklists, or for two class lists with
    that text: the stacks, the flag and the word index go the same way,
    and a relation [R] between the two values of [classInfo] that
    [pushClassInfo] keeps is kept. *)
Section Simulation.

Variables cl1 cl2 : DocumentClassList.t.
Variables blocklist1 blocklist2 : list jsstring.
Variable R : list DocumentClassName.t -> list DocumentClassName.t -> Prop.

Hypothesis R_push :
  forall st1 st2 idx,
    sameControl st1 st2 -> R (classInfo st1) (classInfo st2) ->
    R (pushClassInfo cl1 blocklist1 st1 idx)
      (pushClassInfo cl2 blocklist2 st2 idx).

Hypothesis same_text :
  DocumentClassList.classList cl1 = DocumentClassList.classList cl2.

Lemma step_simulation (c : N) (idx : Z) (st1 st2 : State) :
  sameControl st1 st2 -> R (classInfo st1) (classInfo st2) ->
  match step cl1 blocklist1 c idx st1, step cl2 blocklist2 c idx st2 with
  | Ok st1', Ok st2' =>
      sameControl st1' st2' /\ R (classInfo st1') (classInfo st2')
  | RangeError, RangeError => True
  | _, _ => False
  end.
Proof.
  intros Hc HR. pose proof Hc as (Hs & Hg & Hl & Hloc & Hw).
  pose proof (R_push st1 st2 idx Hc HR) as Hpush.
  unfold step. rewrite <- Hs.
  destruct (negb (searchingForStart st1) && is_separator c).
  { split; [|exact Hpush]. repeat split; cbn; assumption. }
  destruct (negb (searchingForStart st1) && N.eqb c COLON).
  { split; [|exact HR]. repeat split; cbn; try assumption.
    rewrite Hloc, Hw, same_text. reflexivity. }
  destruct (N.eqb c LPAREN).
  { split; [|exact HR]. repeat split; cbn; try assumption.
    - rewrite Hg, Hloc. reflexivity.
    - rewrite Hl, Hloc. reflexivity. }
  destruct (N.eqb c RPAREN).
  { unfold closeGroup. rewrite <- Hs, <- Hl, <- Hg.
    destruct (pop (globalStackLengths st1)) as [lastLength lengths].
    destruct (match lastLength with
              | Some n =>
                  if n =? 0 then Ok (globalStack st1)
                  else setLength (globalStack st1)
                         (Z.of_nat (List.length (globalStack st1)) - n)
              | None => Ok (globalStack st1)
              end); [|exact I].
    split; [repeat split; cbn; assumption|].
    cbn [classInfo]. destruct (negb (searchingForStart st1)); assumption. }
  destruct (searchingForStart st1 && negb (is_separator c)).
  { split; [|exact HR]. repeat split; cbn; assumption. }
  split; assumption.
Qed.

Lemma scan_simulation (chars : jsstring) :
  forall idx st1 st2,
    sameControl st1 st2 -> R (classInfo st1) (classInfo st2) ->
    match scan cl1 blocklist1 chars idx st1,
          scan cl2 blocklist2 chars idx st2 with
    | Ok st1', Ok st2' =>
        sameControl st1' st2' /\ R (classInfo st1') (classInfo st2')
    | RangeError, RangeError => True
    | _, _ => False
    end.
Proof.
  induction chars as [|c chars IH]; intros idx st1 st2 Hc HR.
  - cbn. split; assumption.
  - cbn [scan]. pose proof (step_simulation c idx st1 st2 Hc HR) as Hstep.
    destruct (step cl1 blocklist1 c idx st1) as [st1'|],
             (step cl2 blocklist2 c idx st2) as [st2'|];
      try contradiction; [|exact I].
    destruct Hstep as [Hc' HR']. apply IH; assumption.
Qed.

Lemma tokenizer_simulation :
  R [] [] ->
  match getClassNamesAndVariantsInClassList cl1 blocklist1,
        getClassNamesAndVariantsInClassList cl2 blocklist2 with
  | Ok toks1, Ok toks2 => R toks1 toks2
  | RangeError, RangeError => True
  | _, _ => False
  end.
Proof.
  intros Hnil. unfold getClassNamesAndVariantsInClassList.
  rewrite <- same_text.
  assert (Hc0 : sameControl initialState initialState)
    by (repeat split; reflexivity).
  pose proof (scan_simulation (DocumentClassList.classList cl1) 0
                initialState initialState Hc0 Hnil) as Hscan.
  destruct (scan cl1 blocklist1 (DocumentClassList.classList cl1) 0
              initialState) as [st1|],
           (scan cl2 blocklist2 (DocumentClassList.classList cl1) 0
              initialState) as [st2|];
    try contradiction; [|exact I].
  destruct Hscan as [Hc HR]. pose proof Hc as (Hs & _).
  rewrite <- Hs.
  destruct (negb (searchingForStart st1)); [|assumption].
  apply R_push; assumption.
Qed.

End Simulation.

(** X2: the class names that the variant-aware tokenizer returns under a
    blocklist are the ones it returns under the empty blocklist, without
    those that have their name on the blocklist: the blocklist changes
    neither the variants nor the ranges of the others. *)
Theorem getClassNamesAndVariantsInClassList_blocklist
    (cl : DocumentClassList.t) (blocklist : list jsstring) :
  exists all,
    getClassNamesAndVariantsInClassList cl [] = Ok all
    /\ getClassNamesAndVariantsInClassList cl blocklist
       = Ok (filter (offBlocklist blocklist) all).
Proof.
  pose proof (tokenizer_simulation cl cl blocklist []
                (fun l1 l2 => l1 = filter (offBlocklist blocklist) l2)) as H.
  destruct (getClassNamesAndVariantsInClassList_emitted cl [])
    as (all & Hall & _).
  destruct (getClassNamesAndVariantsInClassList_emitted cl blocklist)
    as (toks & Htoks & _).
  rewrite Hall, Htoks in H. exists all. split; [exact Hall|].
  rewrite Htoks. f_equal. apply H; [|reflexivity|reflexivity].
  intros st1 st2 idx (Hs & Hg & Hl & Hloc & Hw) HR.
  unfold pushClassInfo. cbn [includes existsb negb].
  rewrite filter_app, <- HR. cbn [filter].
  assert (E : classInfoAt cl st1 idx = classInfoAt cl st2 idx).
  { unfold classInfoAt. rewrite Hg, Hloc, Hw. reflexivity. }
  rewrite E.
  change (offBlocklist blocklist (classInfoAt cl st2 idx))
    with (negb (includes blocklist
                  (DocumentClassName.className (classInfoAt cl st2 idx)))).
  destruct (includes blocklist _); cbn [negb];
    [rewrite app_nil_r|]; reflexivity.
Qed.

(** X3: the names, the variants and the local ranges that the two
    tokenizers return depend on the text of the class list and on the
    blocklist only, not on the range of the class list or on its
    [important] flag. *)
Theorem tokenizers_local (cl1 cl2 : DocumentClassList.t)
    (blocklist : list jsstring) :
  DocumentClassList.classList cl1 = DocumentClassList.classList cl2 ->
  map localPart (getClassNamesInClassList cl1 blocklist)
  = map localPart (getClassNamesInClassList cl2 blocklist)
  /\ exists toks1 toks2,
       getClassNamesAndVariantsInClassList cl1 blocklist = Ok toks1
       /\ getClassNamesAndVariantsInClassList cl2 blocklist = Ok toks2
       /\ map localPart toks1 = map localPart toks2.
Proof.
  intros Htext. split.
  - unfold getClassNamesInClassList. rewrite <- Htext.
    generalize (splitWhitespace (DocumentClassList.classList cl1)).
    generalize 0%nat. generalize 0.
    intros index i parts. revert i index.
    induction parts as [|part parts IH]; intros i index; [reflexivity|].
    cbn [namesFrom]. rewrite !map_app, IH. f_equal.
    destruct (Nat.even i && negb (includes blocklist part)); [|reflexivity].
    cbn. unfold localPart. cbn. rewrite Htext. reflexivity.
  - pose proof (tokenizer_simulation cl1 cl2 blocklist blocklist
                  (fun l1 l2 => map localPart l1 = map localPart l2)) as H.
    destruct (getClassNamesAndVariantsInClassList_emitted cl1 blocklist)
      as (toks1 & H1 & _).
    destruct (getClassNamesAndVariantsInClassList_emitted cl2 blocklist)
      as (toks2 & H2 & _).
    rewrite H1, H2 in H. exists toks1, toks2.
    split; [exact H1|]. split; [exact H2|].
    apply H; [|assumption|reflexivity].
    intros st1 st2 idx (Hs & Hg & Hl & Hloc & Hw) HR.
    unfold pushClassInfo.
    assert (E : localPart (classInfoAt cl1 st1 idx)
                = localPart (classInfoAt cl2 st2 idx)).
    { unfold classInfoAt, localPart. cbn. rewrite Hg, Hloc, Hw, Htext.
      reflexivity. }
    assert (En : DocumentClassName.className (classInfoAt cl1 st1 idx)
                 = DocumentClassName.className (classInfoAt cl2 st2 idx)).
    { cbn. rewrite Hw, Htext. reflexivity. }
    rewrite En.
    destruct (includes blocklist _); cbn [negb]; [assumption|].
    rewrite !map_app, HR. cbn [map]. rewrite E. reflexivity.
Qed.

(** ** The words of the variant-aware tokenizer *)

Lemma isWord_snoc (w : jsstring) (c : N) :
  isWord w = true -> wordNext c = true -> isWord (w ++ [c]) = true.
Proof.
  destruct w as [|x w]; [discriminate|]. cbn [isWord app].
  intros H Hc. apply andb_true_iff in H as [Hx Hw].
  rewrite Hx, forallb_app, Hw. cbn. rewrite Hc. reflexivity.
Qed.

Lemma Forall_firstn_of {A : Type} (P : A -> Prop) (n : nat) (l : list A) :
  Forall P l -> Forall P (firstn n l).
Proof.
  intros H. rewrite <- (firstn_skipn n l) in H.
  apply Forall_app in H. apply H.
Qed.

Section Words.

Variable cl : DocumentClassList.t.
Variable blocklist : list jsstring.

Lemma pushClassInfo_words (st : State) (idx : Z) :
  WordInv cl idx st -> searchingForStart st = false ->
  Forall wordsOnly (pushClassInfo cl blocklist st idx).
Proof.
  intros (Hw & Hopen & Hloc & Hglob & Hall) Hs. unfold pushClassInfo.
  destruct (includes blocklist _); cbn [negb]; [assumption|].
  apply Forall_app. split; [assumption|]. constructor; [|constructor].
  split; [apply Hopen; assumption|].
  eexists. split; [reflexivity|]. apply Forall_app. split; assumption.
Qed.

Lemma step_words (pre : jsstring) (c : N) (post : jsstring) (st st' : State) :
  DocumentClassList.classList cl = pre ++ c :: post ->
  WordInv cl (len pre) st ->
  step cl blocklist c (len pre) st = Ok st' ->
  WordInv cl (len pre + 1) st'.
Proof.
  intros Htext Hinv. pose proof Hinv as (Hw & Hopen & Hloc & Hglob & Hall).
  pose proof (len_nonneg pre) as Hpre.
  assert (Hone : substring (DocumentClassList.classList cl) (len pre)
                   (len pre + 1) = [c]).
  { rewrite Htext. apply substring_one. }
  assert (Hlen : len pre + 1 <= len (DocumentClassList.classList cl)).
  { rewrite Htext, len_app, len_cons. pose proof (len_nonneg post). lia. }
  unfold step.
  destruct (searchingForStart st) eqn:Hs; cbn [negb andb].
  - (* no word is open *)
    destruct (N.eqb c LPAREN) eqn:Hl.
    { intros [= <-]. split; [|split; [|split; [|split]]]; cbn;
        try assumption; try discriminate; try lia; try constructor.
      apply Forall_app. split; assumption. }
    destruct (N.eqb c RPAREN) eqn:Hr.
    { unfold closeGroup. rewrite Hs. cbn [negb].
      destruct (pop (globalStackLengths st)) as [[n|] lengths].
      - destruct (n =? 0).
        + intros [= <-]. split; [|split; [|split; [|split]]]; cbn;
            try assumption; try discriminate; try lia; constructor.
        + unfold setLength.
          destruct (Z.of_nat (List.length (globalStack st)) - n <? 0);
            [discriminate|].
          intros [= <-]. split; [|split; [|split; [|split]]]; cbn;
            try assumption; try discriminate; try lia; try constructor.
          apply Forall_firstn_of. assumption.
      - intros [= <-]. split; [|split; [|split; [|split]]]; cbn;
          try assumption; try discriminate; try lia; constructor. }
    destruct (is_separator c) eqn:Hsep; cbn [negb].
    + intros [= <-]. split; [|split; [|split; [|split]]];
        try assumption; try lia; try (rewrite Hs; discriminate).
    + intros [= <-]. split; [|split; [|split; [|split]]]; cbn;
        try assumption; try lia.
      intros _. rewrite Hone. cbn. unfold wordStart.
      rewrite Hsep, Hl, Hr. reflexivity.
  - (* a word is open *)
    specialize (Hopen eq_refl).
    destruct (is_separator c) eqn:Hsep.
    { intros [= <-]. split; [|split; [|split; [|split]]]; cbn;
        try assumption; try discriminate; try lia; try constructor.
      apply pushClassInfo_words; assumption. }
    destruct (N.eqb c COLON) eqn:Hcolon.
    { intros [= <-]. split; [|split; [|split; [|split]]]; cbn;
        try assumption; try discriminate; try lia.
      apply Forall_app. split; [assumption|].
      constructor; [assumption | constructor]. }
    destruct (N.eqb c LPAREN) eqn:Hl.
    { intros [= <-]. split; [|split; [|split; [|split]]]; cbn;
        try assumption; try discriminate; try lia; try constructor.
      apply Forall_app. split; assumption. }
    destruct (N.eqb c RPAREN) eqn:Hr.
    { unfold closeGroup. rewrite Hs. cbn [negb].
      pose proof (pushClassInfo_words st (len pre) Hinv Hs) as Hpush.
      destruct (pop (globalStackLengths st)) as [[n|] lengths].
      - destruct (n =? 0).
        + intros [= <-]. split; [|split; [|split; [|split]]]; cbn;
            try assumption; try discriminate; try lia; constructor.
        + unfold setLength.
          destruct (Z.of_nat (List.length (globalStack st)) - n <? 0);
            [discriminate|].
          intros [= <-]. split; [|split; [|split; [|split]]]; cbn;
            try assumption; try discriminate; try lia; try constructor.
          apply Forall_firstn_of. assumption.
      - intros [= <-]. split; [|split; [|split; [|split]]]; cbn;
          try assumption; try discriminate; try lia; constructor. }
    intros [= <-]. split; [|split; [|split; [|split]]];
      try assumption; try lia.
    intros _.
    rewrite (substring_split _ (wordIndex st) (len pre) (len pre + 1))
      by lia.
    rewrite Hone. apply isWord_snoc; [assumption|].
    unfold wordNext, wordStart. rewrite Hsep, Hl, Hr, Hcolon. reflexivity.
Qed.

Lemma scan_words (chars : jsstring) :
  forall pre st st',
    DocumentClassList.classList cl = pre ++ chars ->
    WordInv cl (len pre) st ->
    scan cl blocklist chars (len pre) st = Ok st' ->
    WordInv cl (len (DocumentClassList.classList cl)) st'.
Proof.
  induction chars as [|c chars IH]; intros pre st st' Htext Hinv.
  - rewrite app_nil_r in Htext. cbn. intros [= <-]. rewrite Htext.
    assumption.
  - cbn [scan].
    destruct (step cl blocklist c (len pre) st) as [st1|] eqn:E;
      [|discriminate].
    replace (len pre + 1) with (len (pre ++ [c]))
      by (rewrite len_app, len_cons, len_nil; lia).
    apply IH.
    + rewrite Htext, <- app_assoc. reflexivity.
    + rewrite len_app, len_cons, len_nil.
      replace (len pre + (0 + 1)) with (len pre + 1) by lia.
      apply (step_words pre c chars st); assumption.
Qed.

Lemma getClassNamesAndVariantsInClassList_words :
  exists toks,
    getClassNamesAndVariantsInClassList cl blocklist = Ok toks
    /\ Forall wordsOnly toks.
Proof.
  destruct (getClassNamesAndVariantsInClassList_emitted cl blocklist)
    as (toks & Hrun & _).
  exists toks. split; [assumption|].
  unfold getClassNamesAndVariantsInClassList in Hrun.
  destruct (scan cl blocklist (DocumentClassList.classList cl) 0 initialState)
    as [st|] eqn:Hscan; [|discriminate].
  injection Hrun as <-.
  assert (Hinv : WordInv cl (len (DocumentClassList.classList cl)) st).
  { apply (scan_words (DocumentClassList.classList cl) [] initialState);
      [reflexivity | | assumption].
    split; [|split; [|split; [|split]]]; cbn;
      try discriminate; try lia; constructor. }
  destruct (searchingForStart st) eqn:Hs; cbn [negb].
  - apply Hinv.
  - apply pushClassInfo_words; assumption.
Qed.

End Words.

(** X4: every class name that the variant-aware tokenizer returns, and
    every variant of it, is a word: it is not empty, it has no separator and
    no parenthesis, and it has no colon except, possibly, as its first code
    unit. *)
Theorem variant_names_are_words (cl : DocumentClassList.t)
    (blocklist : list jsstring) :
  exists toks,
    getClassNamesAndVariantsInClassList cl blocklist = Ok toks
    /\ Forall wordsOnly toks.
Proof. apply getClassNamesAndVariantsInClassList_words. Qed.

(** ** Class lists without colons *)

Section NoColon.

Variable cl : DocumentClassList.t.
Variable blocklist : list jsstring.

Lemma pushClassInfo_no_variants (st : State) (idx : Z) :
  NoVariants st ->
  Forall (fun t => DocumentClassName.variants t = Some [])
    (pushClassInfo cl blocklist st idx).
Proof.
  intros (Hloc & Hglob & Hall). unfold pushClassInfo.
  destruct (includes blocklist _); cbn [negb]; [assumption|].
  apply Forall_app. split; [assumption|]. constructor; [|constructor].
  cbn. rewrite Hloc, Hglob. reflexivity.
Qed.

Lemma step_no_variants (c : N) (idx : Z) (st st' : State) :
  NoVariants st -> N.eqb c COLON = false ->
  step cl blocklist c idx st = Ok st' -> NoVariants st'.
Proof.
  intros Hinv Hc. pose proof Hinv as (Hloc & Hglob & Hall).
  pose proof (pushClassInfo_no_variants st idx Hinv) as Hpush.
  unfold step. rewrite Hc, andb_false_r.
  destruct (negb (searchingForStart st) && is_separator c).
  { intros [= <-]. repeat split; cbn; assumption. }
  destruct (N.eqb c LPAREN).
  { intros [= <-]. repeat split; cbn; try assumption.
    rewrite Hloc, Hglob. reflexivity. }
  destruct (N.eqb c RPAREN).
  { unfold closeGroup.
    destruct (pop (globalStackLengths st)) as [[n|] lengths].
    - rewrite Hglob. unfold setLength. rewrite firstn_nil.
      destruct (n =? 0); [|destruct (_ <? 0); [discriminate|]];
        intros [= <-]; repeat split; cbn;
        destruct (negb (searchingForStart st)); assumption.
    - intros [= <-]. repeat split; cbn; try assumption.
      destruct (negb (searchingForStart st)); assumption. }
  destruct (searchingForStart st && negb (is_separator c)).
  { intros [= <-]. repeat split; cbn; assumption. }
  intros [= <-]. assumption.
Qed.

Lemma scan_no_variants (chars : jsstring) :
  forall idx st st',
    NoVariants st -> ~ In COLON chars ->
    scan cl blocklist chars idx st = Ok st' -> NoVariants st'.
Proof.
  induction chars as [|c chars IH]; intros idx st st' Hinv Hno.
  - cbn. intros [= <-]. assumption.
  - cbn [scan].
    destruct (step cl blocklist c idx st) as [st1|] eqn:E; [|discriminate].
    apply IH.
    + apply (step_no_variants c idx st); [assumption | | assumption].
      apply N.eqb_neq. intros ->. apply Hno. left. reflexivity.
    + intros H. apply Hno. right. assumption.
Qed.

Lemma getClassNamesAndVariantsInClassList_no_variants :
  ~ In COLON (DocumentClassList.classList cl) ->
  exists toks,
    getClassNamesAndVariantsInClassList cl blocklist = Ok toks
    /\ Forall (fun t => DocumentClassName.variants t = Some []) toks.
Proof.
  intros Hno.
  destruct (getClassNamesAndVariantsInClassList_emitted cl blocklist)
    as (toks & Hrun & _).
  exists toks. split; [assumption|].
  unfold getClassNamesAndVariantsInClassList in Hrun.
  destruct (scan cl blocklist (DocumentClassList.classList cl) 0 initialState)
    as [st|] eqn:Hscan; [|discriminate].
  injection Hrun as <-.
  assert (Hinv : NoVariants st).
  { apply (scan_no_variants (DocumentClassList.classList cl) 0 initialState);
      [|assumption|assumption].
    repeat split; constructor. }
  destruct (negb (searchingForStart st)).
  - apply pushClassInfo_no_variants. assumption.
  - apply Hinv.
Qed.

End NoColon.

(** X5: for a class list without a colon the variant-aware tokenizer
    returns class names without variants, whatever parentheses the class
    list has: variants come from colons only. *)
Theorem no_colon_no_variants (cl : DocumentClassList.t)
    (blocklist : list jsstring) :
  ~ In COLON (DocumentClassList.classList cl) ->
  exists toks,
    getClassNamesAndVariantsInClassList cl blocklist = Ok toks
    /\ Forall (fun t => DocumentClassName.variants t = Some []) toks.
Proof. apply getClassNamesAndVariantsInClassList_no_variants. Qed.

(** ** Positions in a text and in a longer text *)

Lemma columnAfter_base (s : jsstring) (c : Z) :
  columnAfter s c = (if newlines s =? 0 then c else 0) + columnAfter s 0.
Proof.
  revert c. induction s as [|x s IH]; intros c.
  - cbn. lia.
  - rewrite !columnAfter_cons. cbn [newlines].
    pose proof (newlines_nonneg s) as Hn.
    destruct (N.eqb x NL).
    + replace (1 + newlines s =? 0) with false by lia. lia.
    + rewrite (IH (c + 1)), (IH (0 + 1)). cbn [Z.add].
      destruct (newlines s =? 0); lia.
Qed.

Lemma columnAfter_no_newline (s : jsstring) (c : Z) :
  newlines s = 0 -> columnAfter s c = c + len s.
Proof.
  revert c. induction s as [|x s IH]; intros c Hn.
  - cbn. lia.
  - rewrite columnAfter_cons, len_cons. cbn [newlines] in Hn.
    pose proof (newlines_nonneg s).
    destruct (N.eqb x NL); [lia|]. rewrite IH by lia. lia.
Qed.

Lemma before_app_ge (a b : jsstring) (k : Z) :
  0 <= k -> before (a ++ b) (len a + k) = a ++ before b k.
Proof.
  intros Hk. unfold before, len.
  replace (Z.to_nat (Z.of_nat (List.length a) + k))
    with (List.length a + Z.to_nat k)%nat by lia.
  rewrite firstn_app_2. reflexivity.
Qed.

Lemma before_len (a : jsstring) : before a (len a) = a.
Proof. unfold before, len. rewrite Nat2Z.id. apply firstn_all. Qed.

(** Text that follows does not change the position of an offset. *)
Lemma indexToPosition_prefix (a b : jsstring) (i : Z) :
  0 <= i <= len a -> indexToPosition (a ++ b) i = indexToPosition a i.
Proof.
  intros Hi. pose proof (len_nonneg b).
  rewrite !indexToPosition_in_range by (rewrite ?len_app; lia).
  rewrite before_app_le by lia. reflexivity.
Qed.

(** The position of an offset of [b] in [a ++ b] is its position in [b],
    counted from the position of the end of [a]. *)
Lemma indexToPosition_app (a b : jsstring) (k : Z) :
  0 <= k <= len b ->
  indexToPosition (a ++ b) (len a + k)
  = fromBase (indexToPosition a (len a)) (indexToPosition b k).
Proof.
  intros Hk. pose proof (len_nonneg a).
  rewrite !indexToPosition_in_range by (rewrite ?len_app; lia).
  rewrite before_app_ge, before_len by lia.
  unfold fromBase. cbn [line character].
  rewrite newlines_app, columnAfter_app.
  rewrite (columnAfter_base (before b k) (columnAfter a 0)).
  reflexivity.
Qed.

Lemma indexToPosition_increasing (str : jsstring) (i j : Z) :
  0 <= i -> i < j -> j <= len str ->
  pos_lt (indexToPosition str i) (indexToPosition str j).
Proof.
  intros Hi Hij Hj. rewrite !indexToPosition_in_range by lia.
  rewrite (before_split str i j) by lia.
  unfold pos_lt. cbn [line character].
  rewrite newlines_app, columnAfter_app.
  pose proof (newlines_nonneg (substring str i j)) as Hn.
  destruct (Z.eq_dec (newlines (substring str i j)) 0) as [E | E].
  - right. split; [lia|].
    rewrite (columnAfter_no_newline (substring str i j)) by assumption.
    rewrite len_substring by lia. lia.
  - left. lia.
Qed.

(** X6: on the offsets of a text, from 0 to its length, [indexToPosition]
    is strictly increasing in the order of positions, line first and
    character second; two different offsets never get the same position. *)
Theorem indexToPosition_strictly_increasing (str : jsstring) (i j : Z) :
  0 <= i -> i < j -> j <= len str ->
  pos_lt (indexToPosition str i) (indexToPosition str j)
  /\ indexToPosition str i <> indexToPosition str j.
Proof.
  intros Hi Hij Hj.
  pose proof (indexToPosition_increasing str i j Hi Hij Hj) as Hlt.
  split; [assumption|].
  intros E. rewrite E in Hlt. unfold pos_lt in Hlt. lia.
Qed.

(** X7: positions compose along a concatenation. Text that follows does
    not change the position of an offset, and the position of an offset of
    [b] in [a ++ b] is its position in [b] counted from the end of [a]: the
    lines add up, the character of the end of [a] is added on the first
    line of [b] and nothing is added on its later lines. *)
Theorem indexToPosition_concatenation (a b : jsstring) (i k : Z) :
  0 <= i <= len a -> 0 <= k <= len b ->
  indexToPosition (a ++ b) i = indexToPosition a i
  /\ indexToPosition (a ++ b) (len a + k)
     = fromBase (indexToPosition a (len a)) (indexToPosition b k).
Proof.
  intros Hi Hk. split.
  - apply indexToPosition_prefix. assumption.
  - apply indexToPosition_app. assumption.
Qed.

(** ** The ranges of the class names in the document *)

(** The range that the tokenizers build from two offsets of a class list
    that stands at [pre] in a document, when the range of the class list
    starts at the position of the class list in the document. *)
Lemma absoluteRange_in_document (pre text post : jsstring) (range : Range)
    (i j : Z) :
  start range = indexToPosition (pre ++ text ++ post) (len pre) ->
  0 <= i <= j -> j <= len text ->
  end_ (absoluteRange range (indexToPosition text i) (indexToPosition text j))
  = indexToPosition (pre ++ text ++ post) (len pre + j)
  /\ (line (indexToPosition text i) = line (indexToPosition text j)
      \/ line (indexToPosition text i) <> 0 ->
      start (absoluteRange range (indexToPosition text i)
               (indexToPosition text j))
      = indexToPosition (pre ++ text ++ post) (len pre + i)).
Proof.
  intros Hstart Hi Hj.
  pose proof (len_nonneg pre). pose proof (len_nonneg post).
  assert (Hbase : start range = indexToPosition pre (len pre)).
  { rewrite Hstart. apply indexToPosition_prefix. lia. }
  assert (Hin : forall k, 0 <= k <= len text ->
            indexToPosition (pre ++ text ++ post) (len pre + k)
            = fromBase (start range) (indexToPosition text k)).
  { intros k Hk. rewrite indexToPosition_app by (rewrite len_app; lia).
    rewrite indexToPosition_prefix by lia. rewrite Hbase. reflexivity. }
  rewrite !Hin by lia. unfold absoluteRange, fromBase. cbn [start end_].
  split; [reflexivity|].
  pose proof (line_monotone text i j ltac:(lia) ltac:(lia)) as Hle.
  pose proof (line_nonneg text i) as Hnonneg.
  intros Hcase. f_equal.
  destruct (Z.eqb_spec (line (indexToPosition text j)) 0),
           (Z.eqb_spec (line (indexToPosition text i)) 0); try reflexivity; lia.
Qed.

(** X8: when a class list stands in a document, after [pre] and before
    [post], and its range starts at the position of its first code unit in
    the document, the range of every class name of
    [getClassNamesInClassList] is the range of that name in the document:
    its start and its end are the document positions of the offsets of the
    name, and the text of the document that it delimits is the name. *)
Theorem getClassNamesInClassList_document_range
    (cl : DocumentClassList.t) (blocklist : list jsstring)
    (pre post : jsstring) (t : DocumentClassName.t) :
  let text := DocumentClassList.classList cl in
  let doc := pre ++ text ++ post in
  start (DocumentClassList.range cl) = indexToPosition doc (len pre) ->
  In t (getClassNamesInClassList cl blocklist) ->
  start (DocumentClassName.range t)
  = indexToPosition doc (len pre + startOffset text t)
  /\ end_ (DocumentClassName.range t)
     = indexToPosition doc (len pre + endOffset text t)
  /\ textInRange doc (DocumentClassName.range t)
     = DocumentClassName.className t.
Proof.
  intros text doc Hstart Hin. subst text doc.
  apply getClassNamesInClassList_inv in Hin
    as (a & w & b & Htext & Hw & _ & ->).
  pose proof (nameAt_lines cl a w b Htext Hw) as Hline.
  pose proof (len_nonneg a). pose proof (len_nonneg w).
  pose proof (len_nonneg b). pose proof (len_nonneg pre).
  pose proof (len_nonneg post).
  set (text := DocumentClassList.classList cl) in *.
  assert (Hlen : len text = len a + len w + len b).
  { rewrite Htext, !len_app. lia. }
  destruct (absoluteRange_in_document pre text post
              (DocumentClassList.range cl) (len a) (len a + len w)
              Hstart ltac:(lia) ltac:(lia)) as [Hend Hst].
  unfold startOffset, endOffset, textInRange.
  cbn [nameAt DocumentClassName.relativeRange DocumentClassName.range
       DocumentClassName.className start end_] in *.
  fold text in Hline |- *.
  rewrite !positionToIndex_indexToPosition by lia.
  rewrite Hend, (Hst (or_introl Hline)).
  split; [reflexivity|]. split; [reflexivity|].
  rewrite !positionToIndex_indexToPosition
    by (rewrite !len_app; fold text; lia).
  rewrite Htext.
  replace (pre ++ (a ++ w ++ b) ++ post) with ((pre ++ a) ++ w ++ (b ++ post))
    by (rewrite <- !app_assoc; reflexivity).
  replace (len pre + len a) with (len (pre ++ a)) by apply len_app.
  replace (len pre + (len a + len w)) with (len (pre ++ a) + len w)
    by (rewrite len_app; lia).
  apply substring_middle.
Qed.

(** The local range of a class name of the variant-aware tokenizer is made
    of the positions of two offsets of the class list, in this order. *)
Lemma emitted_offsets (cl : DocumentClassList.t) (blocklist : list jsstring)
    (t : DocumentClassName.t) :
  Emitted cl blocklist t ->
  let text := DocumentClassList.classList cl in
  0 <= startOffset text t <= endOffset text t
  /\ endOffset text t <= len text
  /\ start (DocumentClassName.relativeRange t)
     = indexToPosition text (startOffset text t)
  /\ end_ (DocumentClassName.relativeRange t)
     = indexToPosition text (endOffset text t).
Proof.
  intros (st & idx & Hw & Hidx & _ & _ & ->) text. subst text.
  unfold startOffset, endOffset.
  cbn [classInfoAt DocumentClassName.relativeRange start end_].
  set (text := DocumentClassList.classList cl) in *.
  rewrite len_substring by lia.
  pose proof (localStackOffset_nonneg (localStack st)) as Hoff.
  set (off := localStackOffset (localStack st)) in *.
  rewrite (positionToIndex_indexToPosition text idx) by lia.
  rewrite positionToIndex_any.
  destruct ((idx - (idx - wordIndex st) - off <? 0)
            || (len text <? idx - (idx - wordIndex st) - off)) eqn:E.
  - rewrite indexToPosition_out_of_range by lia.
    rewrite indexToPosition_0. repeat split; try reflexivity; lia.
  - repeat split; try reflexivity; lia.
Qed.

(** X9: when a class list stands in a document, after [pre] and before
    [post], and its range starts at the position of its first code unit in
    the document, the end of the range of every class name of the
    variant-aware tokenizer is the document position of the end of its local
    range; the start is the document position of the start of its local
    range when the local range is on one line or starts after the first
    line. *)
Theorem getClassNamesAndVariantsInClassList_document_range
    (cl : DocumentClassList.t) (blocklist : list jsstring)
    (pre post : jsstring) (toks : list DocumentClassName.t)
    (t : DocumentClassName.t) :
  let text := DocumentClassList.classList cl in
  let doc := pre ++ text ++ post in
  let rel := DocumentClassName.relativeRange t in
  start (DocumentClassList.range cl) = indexToPosition doc (len pre) ->
  getClassNamesAndVariantsInClassList cl blocklist = Ok toks ->
  In t toks ->
  end_ (DocumentClassName.range t)
  = indexToPosition doc (len pre + endOffset text t)
  /\ (line (start rel) = line (end_ rel) \/ line (start rel) <> 0 ->
      start (DocumentClassName.range t)
      = indexToPosition doc (len pre + startOffset text t)).
Proof.
  intros text doc rel Hstart Hrun Hin. subst text doc rel.
  destruct (getClassNamesAndVariantsInClassList_emitted cl blocklist)
    as (toks' & Hrun' & Hall).
  rewrite Hrun in Hrun'. injection Hrun' as <-.
  rewrite Forall_forall in Hall. specialize (Hall t Hin).
  destruct (emitted_lines cl blocklist t Hall) as [_ Habs].
  destruct (emitted_offsets cl blocklist t Hall) as (Ho & Hlen & Hs & He).
  destruct (absoluteRange_in_document pre
              (DocumentClassList.classList cl) post
              (DocumentClassList.range cl)
              (startOffset (DocumentClassList.classList cl) t)
              (endOffset (DocumentClassList.classList cl) t)
              Hstart Ho Hlen) as [Hend Hst].
  rewrite <- Hs, <- He in Hend, Hst. rewrite Habs.
  split; [exact Hend | exact Hst].
Qed.

(** ** The first comma outside quotes *)

Lemma firstCommaFrom_sound (chars : jsstring) :
  forall i quoteChar k,
    firstCommaFrom chars i quoteChar = Some k ->
    i <= k < i + len chars
    /\ nth_error chars (Z.to_nat (k - i)) = Some COMMA.
Proof.
  induction chars as [|c chars IH]; intros i q k; [discriminate|].
  rewrite len_cons. pose proof (len_nonneg chars) as Hl.
  assert (Hrec : forall q',
            firstCommaFrom chars (i + 1) q' = Some k ->
            i <= k < i + (len chars + 1)
            /\ nth_error (c :: chars) (Z.to_nat (k - i)) = Some COMMA).
  { intros q' H. apply IH in H as [Hk Hn]. split; [lia|].
    replace (Z.to_nat (k - i)) with (S (Z.to_nat (k - (i + 1)))) by lia.
    exact Hn. }
  cbn [firstCommaFrom]. destruct q as [q|].
  - destruct (N.eqb c q); apply Hrec.
  - destruct (N.eqb_spec c COMMA) as [-> | _].
    + intros [= <-]. split; [lia|]. rewrite Z.sub_diag. reflexivity.
    + destruct (N.eqb c DQUOTE || N.eqb c SQUOTE); apply Hrec.
Qed.

Lemma firstCommaFrom_plain (a b : jsstring) :
  forall i,
    forallb noCommaNoQuote a = true ->
    firstCommaFrom (a ++ b) i None = firstCommaFrom b (i + len a) None.
Proof.
  induction a as [|c a IH]; intros i Ha.
  - cbn [app]. rewrite len_nil, Z.add_0_r. reflexivity.
  - cbn [forallb] in Ha. apply andb_true_iff in Ha as [Hc Ha].
    unfold noCommaNoQuote, is_quote in Hc.
    apply andb_true_iff in Hc as [Hcomma Hquote].
    apply negb_true_iff in Hcomma, Hquote.
    cbn [app firstCommaFrom]. rewrite Hcomma, (orb_comm _ (N.eqb c SQUOTE)),
      Hquote.
    rewrite IH by assumption. rewrite len_cons. f_equal. lia.
Qed.

Lemma firstCommaFrom_quoted (body b : jsstring) (q : N) :
  forall i,
    forallb (fun c => negb (N.eqb c q)) body = true ->
    firstCommaFrom (body ++ b) i (Some q)
    = firstCommaFrom b (i + len body) (Some q).
Proof.
  induction body as [|c body IH]; intros i Hb.
  - cbn [app]. rewrite len_nil, Z.add_0_r. reflexivity.
  - cbn [forallb] in Hb. apply andb_true_iff in Hb as [Hc Hb].
    apply negb_true_iff in Hc.
    cbn [app firstCommaFrom]. rewrite Hc.
    rewrite IH by assumption. rewrite len_cons. f_equal. lia.
Qed.

Lemma firstCommaFrom_shift (chars : jsstring) :
  forall i quoteChar,
    firstCommaFrom chars i quoteChar
    = option_map (Z.add i) (firstCommaFrom chars 0 quoteChar).
Proof.
  induction chars as [|c chars IH]; intros i q; [reflexivity|].
  assert (Hrec : forall q',
            firstCommaFrom chars (i + 1) q'
            = option_map (Z.add i) (firstCommaFrom chars (0 + 1) q')).
  { intros q'. rewrite (IH (i + 1)), (IH (0 + 1)).
    destruct (firstCommaFrom chars 0 q'); cbn [option_map]; [|reflexivity].
    f_equal. lia. }
  cbn [firstCommaFrom]. destruct q as [q|].
  - destruct (N.eqb c q); apply Hrec.
  - destruct (N.eqb c COMMA).
    + cbn. f_equal. lia.
    + destruct (N.eqb c DQUOTE || N.eqb c SQUOTE); apply Hrec.
Qed.

(** X10: an index that [getFirstCommaIndex] returns is an index of the
    string and there is a comma at it; for a string without a comma it
    returns [null]. *)
Theorem getFirstCommaIndex_sound (str : jsstring) :
  (forall k,
     getFirstCommaIndex str = Some k ->
     0 <= k < len str /\ nth_error str (Z.to_nat k) = Some COMMA)
  /\ (~ In COMMA str -> getFirstCommaIndex str = None).
Proof.
  assert (H : forall k,
            getFirstCommaIndex str = Some k ->
            0 <= k < len str /\ nth_error str (Z.to_nat k) = Some COMMA).
  { intros k Hk. apply firstCommaFrom_sound in Hk as [Hb Hn].
    rewrite Z.sub_0_r in Hn. split; [lia | assumption]. }
  split; [exact H|].
  intros Hno. destruct (getFirstCommaIndex str) as [k|] eqn:E; [|reflexivity].
  exfalso. apply Hno. destruct (H k eq_refl) as [_ Hn].
  apply nth_error_In in Hn. assumption.
Qed.

(** X11: a comma that no quote precedes is found: for [a] without commas
    and quotes, the first comma of [a , b] is at the length of [a]. *)
Theorem getFirstCommaIndex_unquoted (a b : jsstring) :
  forallb noCommaNoQuote a = true ->
  getFirstCommaIndex (a ++ COMMA :: b) = Some (len a).
Proof.
  intros Ha. unfold getFirstCommaIndex.
  rewrite firstCommaFrom_plain by assumption. reflexivity.
Qed.

(** X12: commas between two quotes of the same kind are skipped, whatever
    other quotes stand between them: after [a] without commas and quotes
    and a quoted [body], the search goes on in the rest, and when the quote
    is not closed there is no first comma. *)
Theorem getFirstCommaIndex_skips_quoted (a body rest : jsstring) (q : N) :
  forallb noCommaNoQuote a = true ->
  is_quote q = true ->
  forallb (fun c => negb (N.eqb c q)) body = true ->
  getFirstCommaIndex (a ++ q :: body ++ q :: rest)
  = option_map (Z.add (len a + len body + 2)) (getFirstCommaIndex rest)
  /\ getFirstCommaIndex (a ++ q :: body) = None.
Proof.
  intros Ha Hq Hbody. unfold getFirstCommaIndex.
  assert (Hopen : forall tail i,
            firstCommaFrom (q :: tail) i None
            = firstCommaFrom tail (i + 1) (Some q)).
  { intros tail i. cbn [firstCommaFrom].
    unfold is_quote in Hq. rewrite (orb_comm _ (N.eqb q SQUOTE)), Hq.
    destruct (N.eqb_spec q COMMA) as [-> | _]; [discriminate Hq|].
    reflexivity. }
  split.
  - rewrite firstCommaFrom_plain by assumption.
    rewrite Hopen, firstCommaFrom_quoted by assumption.
    cbn [firstCommaFrom]. rewrite N.eqb_refl.
    rewrite firstCommaFrom_shift. f_equal. f_equal. lia.
  - rewrite firstCommaFrom_plain by assumption.
    rewrite Hopen. rewrite <- (app_nil_r body).
    rewrite firstCommaFrom_quoted by assumption. reflexivity.
Qed.

(** ** Matches of a regular expression *)

Lemma advances_refl (s : mstate) : advances s s.
Proof. exists []. split; [reflexivity | rewrite len_nil; lia]. Qed.

Lemma advances_trans (s1 s2 s3 : mstate) :
  advances s1 s2 -> advances s2 s3 -> advances s1 s3.
Proof.
  intros (w1 & Hr1 & Hp1) (w2 & Hr2 & Hp2). exists (w1 ++ w2). split.
  - rewrite Hr1, Hr2, app_assoc. reflexivity.
  - rewrite len_app. lia.
Qed.

Lemma orElse_some {A : Type} (a b : option A) (x : A) :
  orElse a b = Some x -> a = Some x \/ (a = None /\ b = Some x).
Proof. destruct a; cbn; intros H; [left | right; split]; auto. Qed.

(** A successful match went on with its continuation from a state further
    on in the text, or from where it was. *)
Lemma matchRe_advances (r : regex) :
  forall k s res,
    matchRe r k s = Some res ->
    exists s1, advances s s1 /\ k s1 = Some res.
Proof.
  induction r as [ | class | r1 IH1 r2 IH2 | r1 IH1 r2 IH2 | greedy r1 IH1
                 | name r1 IH1 | r1 IH1 | | ];
    intros k s res H; cbn [matchRe] in H.
  - exists s. split; [apply advances_refl | assumption].
  - destruct (rest s) as [|c t] eqn:Hr; [discriminate|].
    destruct (class c); [|discriminate].
    eexists. split; [|exact H].
    exists [c]. split; [cbn; assumption | cbn; lia].
  - apply IH1 in H as (s1 & Ha1 & H). apply IH2 in H as (s2 & Ha2 & H).
    exists s2. split; [eapply advances_trans; eassumption | assumption].
  - destruct (matchRe r1 k s) eqn:E1; cbn [orElse] in H.
    + injection H as <-. apply IH1 in E1. assumption.
    + apply IH2 in H. assumption.
  - revert H. generalize (List.length (rest s)). intros n. revert s.
    induction n as [|n IHn]; intros s H.
    + exists s. split; [apply advances_refl | assumption].
    + assert (Hmore :
        matchRe r1
          (fun s' =>
             if pos s <? pos s'
             then (fix iter (fuel : nat) (s0 : mstate) {struct fuel}
                     : option mstate :=
                     match fuel with
                     | O => k s0
                     | S fuel' =>
                         let more :=
                           matchRe r1
                             (fun s'0 =>
                                if pos s0 <? pos s'0 then iter fuel' s'0
                                else None) s0 in
                         if greedy then orElse more (k s0)
                         else orElse (k s0) more
                     end) n s'
             else None) s = Some res ->
        exists s1, advances s s1 /\ k s1 = Some res).
      { intros Hm. apply IH1 in Hm as (s' & Ha & Hm).
        destruct (pos s <? pos s'); [|discriminate].
        apply IHn in Hm as (s1 & Ha1 & Hm).
        exists s1. split; [eapply advances_trans; eassumption | assumption]. }
      cbv zeta in H. destruct greedy;
        apply orElse_some in H as [H | [_ H]];
        try (apply Hmore; exact H);
        exists s; (split; [apply advances_refl | assumption]).
  - apply IH1 in H as (s1 & Ha & H). eexists. split; [|exact H].
    destruct Ha as (w & Hr & Hp). exists w. split; assumption.
  - destruct (matchRe r1 Some s); [discriminate|].
    exists s. split; [apply advances_refl | assumption].
  - destruct (pos s =? 0); [|discriminate].
    exists s. split; [apply advances_refl | assumption].
  - destruct (rest s); [|discriminate].
    exists s. split; [apply advances_refl | assumption].
Qed.

Lemma advances_pos (s s1 : mstate) : advances s s1 -> pos s <= pos s1.
Proof. intros (w & _ & Hp). pose proof (len_nonneg w). lia. Qed.

(** An expression that has to read a code unit moves on in the text. *)
Lemma matchRe_consumes (r : regex) :
  consumes r = true ->
  forall k s res,
    matchRe r k s = Some res ->
    exists s1, advances s s1 /\ pos s < pos s1 /\ k s1 = Some res.
Proof.
  induction r as [ | class | r1 IH1 r2 IH2 | r1 IH1 r2 IH2 | greedy r1 IH1
                 | name r1 IH1 | r1 IH1 | | ];
    cbn [consumes]; intros Hc k s res H; try discriminate.
  - pose proof H as H'. apply matchRe_advances in H' as _.
    cbn [matchRe] in H.
    destruct (rest s) as [|c t] eqn:Hr; [discriminate|].
    destruct (class c); [|discriminate].
    eexists. split; [|split; [|exact H]].
    + exists [c]. split; [cbn; assumption | cbn; lia].
    + cbn. lia.
  - cbn [matchRe] in H. destruct (consumes r1) eqn:E1.
    + apply (IH1 eq_refl) in H as (s1 & Ha1 & Hlt & H).
      apply matchRe_advances in H as (s2 & Ha2 & H).
      exists s2. split; [eapply advances_trans; eassumption|].
      apply advances_pos in Ha2. split; [lia | assumption].
    + cbn [orb] in Hc.
      apply matchRe_advances in H as (s1 & Ha1 & H).
      apply (IH2 Hc) in H as (s2 & Ha2 & Hlt & H).
      exists s2. split; [eapply advances_trans; eassumption|].
      apply advances_pos in Ha1. split; [lia | assumption].
  - apply andb_true_iff in Hc as [Hc1 Hc2]. cbn [matchRe] in H.
    apply orElse_some in H as [H | [_ H]].
    + apply (IH1 Hc1) in H. assumption.
    + apply (IH2 Hc2) in H. assumption.
  - cbn [matchRe] in H.
    apply (IH1 Hc) in H as (s1 & Ha & Hlt & H).
    eexists. split; [|split; [|exact H]].
    + destruct Ha as (w & Hr & Hp). exists w. split; assumption.
    + cbn. assumption.
Qed.

Section Exec.

Variable re : regex.
Variable str : jsstring.

Lemma execFrom_spec (tail : jsstring) :
  forall front m,
    str = front ++ tail ->
    execFrom re str tail (len front) = Some m ->
    len front <= index m
    /\ index m + len (whole m) <= len str
    /\ whole m = substring str (index m) (index m + len (whole m))
    /\ (consumes re = true -> 0 < len (whole m)).
Proof.
  induction tail as [|c tail IH]; intros front m Hstr H;
    cbn [execFrom] in H;
    destruct (matchRe re Some {| pos := len front; rest := _; caps := [] |})
      as [res|] eqn:E.
  1, 3: injection H as <-; cbn [index whole];
    pose proof E as E';
    apply matchRe_advances in E as (s1 & (w & Hr & Hp) & [= ->]);
    cbn [pos rest] in Hr, Hp;
    assert (Hwhole : substring str (len front) (pos res) = w)
      by (rewrite Hstr, Hr, Hp; apply substring_middle);
    rewrite Hwhole;
    pose proof (len_nonneg w); pose proof (len_nonneg (rest res));
    (split; [lia|]);
    (split; [rewrite Hstr, Hr, !len_app; lia|]);
    (split; [rewrite <- Hp; symmetry; exact Hwhole|]);
    intros Hc;
    apply (matchRe_consumes re Hc) in E'
      as (s2 & (w2 & Hr2 & Hp2) & Hlt & [= ->]);
    cbn [pos] in Hlt; lia.
  - discriminate.
  - specialize (IH (front ++ [c]) m).
    rewrite len_app, len_cons, len_nil in IH.
    replace (len front + (0 + 1)) with (len front + 1) in IH by lia.
    destruct IH as (H1 & H2 & H3 & H4); [|assumption|].
    + rewrite Hstr, <- app_assoc. reflexivity.
    + split; [lia|]. split; [assumption|]. split; assumption.
Qed.

Lemma exec_spec (lastIndex : Z) (m : RegExpMatch) :
  0 <= lastIndex <= len str ->
  exec re str lastIndex = Some m ->
  lastIndex <= index m
  /\ index m + len (whole m) <= len str
  /\ whole m = substring str (index m) (index m + len (whole m))
  /\ (consumes re = true -> 0 < len (whole m)).
Proof.
  intros Hl H. unfold exec in H.
  assert (Hlen : len (firstn (Z.to_nat lastIndex) str) = lastIndex).
  { unfold len in *. rewrite length_firstn. lia. }
  rewrite <- Hlen in H at 2.
  apply execFrom_spec in H; [|symmetry; apply firstn_skipn].
  rewrite Hlen in H. exact H.
Qed.

Lemma findAllFrom_inOrder (fuel : nat) :
  forall lastIndex,
    0 <= lastIndex <= len str ->
    inOrder str lastIndex (findAllFrom fuel re str lastIndex).
Proof.
  induction fuel as [|fuel IH]; intros lastIndex Hl; cbn [findAllFrom];
    [exact I|].
  destruct (exec re str lastIndex) as [m|] eqn:E; [|exact I].
  apply exec_spec in E as (H1 & H2 & H3 & _); [|assumption].
  cbn [inOrder]. pose proof (len_nonneg (whole m)).
  split; [assumption|]. split; [assumption|]. split; [assumption|].
  apply IH. lia.
Qed.

Lemma findAllFrom_fuel (fuel1 : nat) :
  consumes re = true ->
  forall fuel2 lastIndex,
    0 <= lastIndex <= len str ->
    len str - lastIndex < Z.of_nat fuel1 ->
    len str - lastIndex < Z.of_nat fuel2 ->
    findAllFrom fuel1 re str lastIndex = findAllFrom fuel2 re str lastIndex.
Proof.
  intros Hc. induction fuel1 as [|fuel1 IH]; intros fuel2 lastIndex Hl H1 H2;
    [lia|].
  destruct fuel2 as [|fuel2]; [lia|]. cbn [findAllFrom].
  destruct (exec re str lastIndex) as [m|] eqn:E; [|reflexivity].
  apply exec_spec in E as (Ha & Hb & _ & Hd); [|assumption].
  specialize (Hd Hc). f_equal. apply IH; lia.
Qed.

Lemma inOrder_last (ms : list RegExpMatch) :
  forall from m m',
    inOrder str from (m :: ms) -> In m' (m :: ms) ->
    index m' <= index (last ms m).
Proof.
  induction ms as [|m1 ms IH]; intros from m m' Hord Hin.
  - destruct Hin as [<- | []]. cbn. lia.
  - destruct Hord as (H1 & H2 & H3 & Hrest).
    assert (Hm1 : index m1 <= index (last ms m1)).
    { apply (IH _ m1 m1 Hrest). left. reflexivity. }
    change (last (m1 :: ms) m) with (last ms m1) || idtac.
    assert (Hlast : last (m1 :: ms) m = last ms m1).
    { clear. revert m1. induction ms as [|x ms IHms]; intros m1;
        [reflexivity|]. cbn [last] in *. destruct ms; [reflexivity|].
      apply IHms. }
    rewrite Hlast. destruct Hin as [<- | Hin].
    + pose proof (len_nonneg (whole m)) as Hw.
      destruct Hrest as (Hr1 & _). lia.
    + apply (IH _ m1 m' Hrest Hin).
Qed.

End Exec.

(** X13: for every regular expression that has to read a code unit, the
    ones for which the loop of [findAll] ends, and every text, the matches
    that [findAll] returns are pieces of the text, each at its index, in
    the order of the text and without overlap: a match begins where the
    one before it ended, or later. *)
Theorem findAll_inOrder (re : regex) (str : jsstring) :
  consumes re = true ->
  inOrder str 0 (findAll re str).
Proof.
  intros _. apply findAllFrom_inOrder. pose proof (len_nonneg str). lia.
Qed.

(** X14: for an expression that has to read a code unit, as the
    expressions of [find.ts] that are given to [findAll] have to, no match
    is empty, so the loop of [findAll] ends because [exec] answers [null]:
    more turns of the loop than the text has code units, plus one, add
    nothing. *)
Theorem findAll_enough_turns (re : regex) (str : jsstring) (fuel : nat) :
  consumes re = true ->
  (List.length str < fuel)%nat ->
  findAllFrom fuel re str 0 = findAll re str
  /\ Forall (fun m => whole m <> []) (findAll re str).
Proof.
  intros Hc Hfuel. pose proof (len_nonneg str) as Hl. split.
  - unfold findAll. apply findAllFrom_fuel; unfold len in *; try assumption;
      lia.
  - unfold findAll. generalize (S (List.length str)). intros n.
    assert (H : forall lastIndex,
              0 <= lastIndex <= len str ->
              Forall (fun m => whole m <> [])
                (findAllFrom n re str lastIndex)).
    { induction n as [|n IH]; intros lastIndex Hi; cbn [findAllFrom];
        [constructor|].
      destruct (exec re str lastIndex) as [m|] eqn:E; [|constructor].
      apply exec_spec in E as (Ha & Hb & _ & Hd); [|assumption].
      specialize (Hd Hc). constructor.
      - intros Hw. rewrite Hw, len_nil in Hd. lia.
      - apply IH. lia. }
    apply H. lia.
Qed.

Lemma last_In {A : Type} (l : list A) :
  forall d, In (last l d) (d :: l).
Proof.
  induction l as [|x l IH]; intros d; [left; reflexivity|].
  destruct l as [|y l]; [right; left; reflexivity|].
  change (last (x :: y :: l) d) with (last (y :: l) d).
  destruct (IH d) as [Hd | Hin]; [left; exact Hd | right; right; exact Hin].
Qed.

(** X15: for a regular expression that has to read a code unit, the ones
    for which the loop of [findAll] ends, [findLast] answers [null] exactly
    when [findAll] finds nothing; otherwise it answers a match of
    [findAll], the one with the greatest index. *)
Theorem findLast_greatest (re : regex) (str : jsstring) :
  consumes re = true ->
  (findLast re str = None <-> findAll re str = [])
  /\ (forall m,
        findLast re str = Some m ->
        In m (findAll re str)
        /\ forall m', In m' (findAll re str) -> index m' <= index m).
Proof.
  intros _. unfold findLast.
  assert (Hord : inOrder str 0 (findAll re str)).
  { apply findAllFrom_inOrder. pose proof (len_nonneg str). lia. }
  destruct (findAll re str) as [|m0 ms] eqn:E.
  - split; [tauto|]. discriminate.
  - split; [split; discriminate|].
    intros m [= <-]. split; [apply last_In|].
    intros m' Hin. apply (inOrder_last str ms 0 m0 m' Hord Hin).
Qed.

(** ** What a match reads and captures *)

Lemma runs_refl (P : N -> bool) (r : regex) (s : mstate) : runs P r s s [].
Proof.
  split; [reflexivity|]. split; [rewrite len_nil; lia|].
  split; [reflexivity|]. exists []. split; [reflexivity | constructor].
Qed.

Lemma Forall_names_incl (added : list (string * (Z * Z)))
    (l1 l2 : list string) :
  (forall n, In n l1 -> In n l2) ->
  Forall (fun c => In (fst c) l1) added ->
  Forall (fun c => In (fst c) l2) added.
Proof.
  intros Hincl H. eapply Forall_impl; [|exact H].
  intros c Hc. apply Hincl. assumption.
Qed.

Lemma runs_names (P : N -> bool) (r r' : regex) (s s1 : mstate)
    (w : jsstring) :
  (forall n, In n (groupNames r) -> In n (groupNames r')) ->
  runs P r s s1 w -> runs P r' s s1 w.
Proof.
  intros Hincl (H1 & H2 & H3 & added & H4 & H5).
  split; [assumption|]. split; [assumption|]. split; [assumption|].
  exists added. split; [assumption|].
  eapply Forall_names_incl; eassumption.
Qed.

Lemma runs_trans (P : N -> bool) (r1 r2 r : regex) (s1 s2 s3 : mstate)
    (w1 w2 : jsstring) :
  (forall n, In n (groupNames r1) -> In n (groupNames r)) ->
  (forall n, In n (groupNames r2) -> In n (groupNames r)) ->
  runs P r1 s1 s2 w1 -> runs P r2 s2 s3 w2 -> runs P r s1 s3 (w1 ++ w2).
Proof.
  intros Hi1 Hi2 (Ha1 & Ha2 & Ha3 & added1 & Ha4 & Ha5)
    (Hb1 & Hb2 & Hb3 & added2 & Hb4 & Hb5).
  split; [rewrite Ha1, Hb1, app_assoc; reflexivity|].
  split; [rewrite len_app; lia|].
  split; [rewrite forallb_app, Ha3, Hb3; reflexivity|].
  exists (added2 ++ added1).
  split; [rewrite Hb4, Ha4, app_assoc; reflexivity|].
  apply Forall_app. split.
  - exact (Forall_names_incl _ _ _ Hi2 Hb5).
  - exact (Forall_names_incl _ _ _ Hi1 Ha5).
Qed.

(** A successful match went on with its continuation after the expression
    read a piece of the text within its classes, not empty when the
    expression has to read, and added captures with the names of its
    groups. *)
Lemma matchRe_runs (P : N -> bool) (r : regex) :
  classesWithin P r ->
  forall k s res,
    matchRe r k s = Some res ->
    exists s1 w,
      runs P r s s1 w /\ (consumes r = true -> 0 < len w)
      /\ k s1 = Some res.
Proof.
  induction r as [ | class | r1 IH1 r2 IH2 | r1 IH1 r2 IH2 | greedy r1 IH1
                 | name r1 IH1 | r1 IH1 | | ];
    cbn [classesWithin consumes]; intros HP k s res H; cbn [matchRe] in H.
  - exists s, []. split; [apply runs_refl|]. split; [discriminate|assumption].
  - destruct (rest s) as [|c t] eqn:Hr; [discriminate|].
    destruct (class c) eqn:Hc; [|discriminate].
    eexists. exists [c]. split; [|split; [intros _; cbn; lia | exact H]].
    split; [cbn; assumption|]. split; [cbn; lia|].
    split; [cbn; rewrite (HP c Hc); reflexivity|].
    exists []. split; [reflexivity | constructor].
  - destruct HP as [HP1 HP2].
    apply (IH1 HP1) in H as (s1 & w1 & Hr1 & Hc1 & H).
    apply (IH2 HP2) in H as (s2 & w2 & Hr2 & Hc2 & H).
    exists s2, (w1 ++ w2). split; [|split; [|assumption]].
    + eapply (runs_trans P r1 r2); try eassumption;
        intros n Hn; cbn [groupNames]; apply in_or_app; auto.
    + intros Hc. rewrite len_app.
      pose proof (len_nonneg w1). pose proof (len_nonneg w2).
      apply orb_true_iff in Hc as [Hc | Hc];
        [specialize (Hc1 Hc) | specialize (Hc2 Hc)]; lia.
  - destruct HP as [HP1 HP2]. apply orElse_some in H as [H | [_ H]].
    + apply (IH1 HP1) in H as (s1 & w & Hr & Hc1 & H). exists s1, w.
      split; [|split; [|assumption]].
      * eapply runs_names; [|exact Hr].
        intros n Hn. cbn [groupNames]. apply in_or_app. auto.
      * intros Hc. apply andb_true_iff in Hc as [Hc _]. auto.
    + apply (IH2 HP2) in H as (s1 & w & Hr & Hc2 & H). exists s1, w.
      split; [|split; [|assumption]].
      * eapply runs_names; [|exact Hr].
        intros n Hn. cbn [groupNames]. apply in_or_app. auto.
      * intros Hc. apply andb_true_iff in Hc as [_ Hc]. auto.
  - revert H. generalize (List.length (rest s)). intros n. revert s.
    induction n as [|n IHn]; intros s H.
    + exists s, []. split; [apply runs_refl|].
      split; [discriminate | assumption].
    + assert (Hmore :
        matchRe r1
          (fun s' =>
             if pos s <? pos s'
             then (fix iter (fuel : nat) (s0 : mstate) {struct fuel}
                     : option mstate :=
                     match fuel with
                     | O => k s0
                     | S fuel' =>
                         let more :=
                           matchRe r1
                             (fun s'0 =>
                                if pos s0 <? pos s'0 then iter fuel' s'0
                                else None) s0 in
                         if greedy then orElse more (k s0)
                         else orElse (k s0) more
                     end) n s'
             else None) s = Some res ->
        exists s1 w,
          runs P (Star greedy r1) s s1 w /\ (false = true -> 0 < len w)
          /\ k s1 = Some res).
      { intros Hm. apply (IH1 HP) in Hm as (s' & w1 & Hr1 & _ & Hm).
        destruct (pos s <? pos s'); [|discriminate].
        apply IHn in Hm as (s1 & w2 & Hr2 & _ & Hm).
        exists s1, (w1 ++ w2). split; [|split; [discriminate|assumption]].
        eapply (runs_trans P r1 (Star greedy r1)); try eassumption;
          intros x Hx; exact Hx. }
      cbv zeta in H. destruct greedy;
        apply orElse_some in H as [H | [_ H]];
        try (apply Hmore; exact H);
        exists s, [];
        (split; [apply runs_refl | split; [discriminate | assumption]]).
  - apply (IH1 HP) in H
      as (s1 & w & (H1 & H2 & H3 & added & H4 & H5) & Hc1 & H).
    eexists. exists w. split; [|split; [exact Hc1 | exact H]].
    split; [assumption|]. split; [assumption|]. split; [assumption|].
    exists ((name, (pos s, pos s1)) :: added).
    split; [cbn; rewrite H4; reflexivity|].
    constructor; [left; reflexivity|].
    eapply Forall_names_incl; [|exact H5]. intros x Hx. right. assumption.
  - destruct (matchRe r1 Some s); [discriminate|].
    exists s, []. split; [apply runs_refl|].
    split; [discriminate | assumption].
  - destruct (pos s =? 0); [|discriminate].
    exists s, []. split; [apply runs_refl|].
    split; [discriminate | assumption].
  - destruct (rest s); [|discriminate].
    exists s, []. split; [apply runs_refl|].
    split; [discriminate | assumption].
Qed.

Example findClassListsInCssRange_important :
  map (fun cl => (DocumentClassList.classList cl,
                  DocumentClassList.important cl))
    (findClassListsInCssRange
       (lit ".a { @apply flex  mt-2 !important; } .b { @apply p-1 }")
       false None)
  = [ (lit "flex  mt-2", Some true); (lit "p-1", Some false) ].
Proof. vm_compute. reflexivity. Qed.

Example findClassListsInCssRange_semicolonless :
  map (fun cl => (DocumentClassList.classList cl,
                  DocumentClassList.important cl))
    (findClassListsInCssRange
       (lit ".a" ++ [NL] ++ lit "  @apply flex mt-2" ++ [NL]
        ++ lit "  @apply p-1 !important")
       true None)
  = [ (lit "flex mt-2", Some false); (lit "p-1", Some true) ].
Proof. vm_compute. reflexivity. Qed.

(** ** Where a match stands in the text *)

Lemma located_step (str : jsstring) (s s1 : mstate) (w : jsstring) :
  located str s -> rest s = w ++ rest s1 -> pos s1 = pos s + len w ->
  located str s1
  /\ substring str (pos s) (pos s1) = w
  /\ 0 <= pos s /\ pos s1 <= len str.
Proof.
  intros (front & Hstr & Hpos) Hr Hp.
  pose proof (len_nonneg front). pose proof (len_nonneg w).
  pose proof (len_nonneg (rest s1)).
  split; [|split; [|split]].
  - exists (front ++ w). split.
    + rewrite Hstr, Hr, app_assoc. reflexivity.
    + rewrite len_app. lia.
  - rewrite Hstr, Hr, Hp, Hpos. apply substring_middle.
  - lia.
  - rewrite Hstr, Hr, !len_app. lia.
Qed.

Lemma located_caps (str : jsstring) (s : mstate)
    (cs : list (string * (Z * Z))) :
  located str s ->
  located str {| pos := pos s; rest := rest s; caps := cs |}.
Proof. intros H. exact H. Qed.

Lemma execFrom_inv (re : regex) (str tail : jsstring) :
  forall front m,
    str = front ++ tail ->
    execFrom re str tail (len front) = Some m ->
    exists s res,
      located str s /\ caps s = []
      /\ matchRe re Some s = Some res
      /\ m = {| index := pos s;
                whole := substring str (pos s) (pos res);
                groups := groupValues str (caps res) |}.
Proof.
  induction tail as [|c tail IH]; intros front m Hstr H;
    cbn [execFrom] in H;
    destruct (matchRe re Some {| pos := len front; rest := _; caps := [] |})
      as [res|] eqn:E.
  1, 3: injection H as <-;
    match type of E with matchRe _ _ ?s0 = _ => exists s0, res end;
    (split; [exists front; split; [exact Hstr | reflexivity]|]);
    (split; [reflexivity|]); (split; [exact E | reflexivity]).
  - discriminate.
  - specialize (IH (front ++ [c]) m).
    rewrite len_app, len_cons, len_nil in IH.
    replace (len front + (0 + 1)) with (len front + 1) in IH by lia.
    apply IH; [|assumption]. rewrite Hstr, <- app_assoc. reflexivity.
Qed.

Lemma exec_inv (re : regex) (str : jsstring) (lastIndex : Z)
    (m : RegExpMatch) :
  0 <= lastIndex <= len str ->
  exec re str lastIndex = Some m ->
  exists s res,
    located str s /\ caps s = []
    /\ matchRe re Some s = Some res
    /\ m = {| index := pos s;
              whole := substring str (pos s) (pos res);
              groups := groupValues str (caps res) |}.
Proof.
  intros Hl H. unfold exec in H.
  assert (Hlen : len (firstn (Z.to_nat lastIndex) str) = lastIndex).
  { unfold len in *. rewrite length_firstn. lia. }
  rewrite <- Hlen in H at 2.
  apply execFrom_inv in H; [exact H|]. symmetry. apply firstn_skipn.
Qed.

Lemma findAllFrom_inv (re : regex) (str : jsstring) (fuel : nat) :
  forall lastIndex m,
    0 <= lastIndex <= len str ->
    In m (findAllFrom fuel re str lastIndex) ->
    exists s res,
      located str s /\ caps s = []
      /\ matchRe re Some s = Some res
      /\ m = {| index := pos s;
                whole := substring str (pos s) (pos res);
                groups := groupValues str (caps res) |}.
Proof.
  induction fuel as [|fuel IH]; intros lastIndex m Hl Hin;
    cbn [findAllFrom] in Hin; [destruct Hin|].
  destruct (exec re str lastIndex) as [m0|] eqn:E; [|destruct Hin].
  destruct Hin as [<- | Hin].
  - apply (exec_inv re str lastIndex); assumption.
  - apply exec_spec in E as (Ha & Hb & _); [|assumption].
    pose proof (len_nonneg (whole m0)).
    apply (IH (index m0 + len (whole m0))); [lia | assumption].
Qed.

Lemma findAll_inv (re : regex) (str : jsstring) (m : RegExpMatch) :
  In m (findAll re str) ->
  exists s res,
    located str s /\ caps s = []
    /\ matchRe re Some s = Some res
    /\ m = {| index := pos s;
              whole := substring str (pos s) (pos res);
              groups := groupValues str (caps res) |}.
Proof.
  apply findAllFrom_inv. pose proof (len_nonneg str). lia.
Qed.

(** ** The groups of a match *)

Lemma group_skip (str : jsstring) (name : string)
    (added cs : list (string * (Z * Z))) :
  Forall (fun c => fst c <> name) added ->
  group name (groupValues str (added ++ cs))
  = group name (groupValues str cs).
Proof.
  induction 1 as [|[n v] added Hn _ IH]; [reflexivity|].
  cbn [app groupValues map group fst]. cbn [fst] in Hn.
  destruct (String.eqb_spec n name) as [E | _]; [contradiction|].
  exact IH.
Qed.

Lemma names_differ (names : list string) (name : string)
    (added : list (string * (Z * Z))) :
  ~ In name names ->
  Forall (fun c => In (fst c) names) added ->
  Forall (fun c => fst c <> name) added.
Proof.
  intros Hno H. eapply Forall_impl; [|exact H].
  intros c Hc E. apply Hno. rewrite <- E. assumption.
Qed.

Lemma no_names_no_captures (added : list (string * (Z * Z))) :
  Forall (fun c => In (fst c) []) added -> added = [].
Proof. destruct 1 as [|c added Hc _]; [reflexivity | destruct Hc]. Qed.

Lemma classesWithin_any (r : regex) : classesWithin (fun _ => true) r.
Proof. induction r; cbn; auto. Qed.

(** A group without groups of its own at the head of a sequence: it reads
    a piece [w] of the text, and the rest of the sequence goes on after it
    with the capture of [w]. *)
Lemma group_first (P : N -> bool) (str : jsstring) (name : string)
    (body tail : regex) (k : mstate -> option mstate) (s res : mstate) :
  classesWithin P body -> groupNames body = [] ->
  located str s ->
  matchRe (Seq (Group name body) tail) k s = Some res ->
  exists s1 w,
    located str s1
    /\ pos s1 = pos s + len w
    /\ substring str (pos s) (pos s1) = w
    /\ forallb P w = true
    /\ (consumes body = true -> 0 < len w)
    /\ caps s1 = (name, (pos s, pos s1)) :: caps s
    /\ 0 <= pos s /\ pos s1 <= len str
    /\ matchRe tail k s1 = Some res.
Proof.
  intros HP Hnames Hloc H. cbn [matchRe] in H.
  apply (matchRe_runs P body HP) in H
    as (s1 & w & (Hr & Hp & Hw & added & Hc & Hadded) & Hcons & H).
  rewrite Hnames in Hadded. apply no_names_no_captures in Hadded.
  subst added. cbn [app] in Hc.
  destruct (located_step str s s1 w Hloc Hr Hp) as (Hloc1 & Hsub & H0 & Hle).
  exists {| pos := pos s1; rest := rest s1;
            caps := (name, (pos s, pos s1)) :: caps s1 |}, w.
  split; [apply (located_caps str s1); exact Hloc1|]. cbn [pos caps].
  split; [assumption|]. split; [assumption|]. split; [assumption|].
  split; [assumption|]. split; [rewrite Hc; reflexivity|].
  split; [assumption|]. split; [assumption|]. exact H.
Qed.

(** The captures at the end of a match that ends with [tail]. *)
Lemma tail_captures (str : jsstring) (tail : regex) (s res : mstate) :
  located str s ->
  matchRe tail Some s = Some res ->
  pos s <= pos res /\ pos res <= len str
  /\ exists added,
       caps res = added ++ caps s
       /\ Forall (fun c => In (fst c) (groupNames tail)) added.
Proof.
  intros Hloc H.
  apply (matchRe_runs (fun _ => true) tail (classesWithin_any tail)) in H
    as (s1 & w & (Hr & Hp & _ & added & Hc & Hadded) & _ & [= ->]).
  destruct (located_step str s res w Hloc Hr Hp) as (_ & _ & H0 & Hle).
  pose proof (len_nonneg w).
  split; [lia|]. split; [assumption|]. exists added. split; assumption.
Qed.

(** ** Class lists in style sheets *)

(** A match of one of the two expressions: the group 1 is a piece [w1] of
    the text at the index of the match, and the group classList is the
    piece [w2] that follows it, not empty and within the class. *)
Lemma applyHead_match (C : N -> bool) (tail : regex) (str : jsstring)
    (s res : mstate) :
  located str s -> caps s = [] ->
  ~ In "1"%string (groupNames tail) ->
  ~ In "classList"%string (groupNames tail) ->
  matchRe (applyHead C tail) Some s = Some res ->
  exists w1 w2,
    group "1" (groupValues str (caps res)) = Some w1
    /\ group "classList" (groupValues str (caps res)) = Some w2
    /\ 0 < len w2 /\ forallb C w2 = true
    /\ substring str (pos s + len w1) (pos s + len w1 + len w2) = w2
    /\ 0 <= pos s + len w1 /\ pos s + len w1 + len w2 <= len str.
Proof.
  intros Hloc Hcaps Hno1 Hno2 H. unfold applyHead in H.
  apply (group_first (fun _ => true) str) in H
    as (s1 & w1 & Hloc1 & Hp1 & Hs1 & _ & _ & Hc1 & H01 & _ & H);
    [|apply classesWithin_any | reflexivity | assumption].
  apply (group_first C str) in H
    as (s2 & w2 & Hloc2 & Hp2 & Hs2 & Hw2 & Hcons & Hc2 & H02 & Hle2 & H);
    [|cbn; auto | reflexivity | assumption].
  apply (tail_captures str) in H as (_ & _ & added & Hc & Hadded);
    [|assumption].
  exists w1, w2. rewrite Hc, Hc2, Hc1, Hcaps.
  split; [|split; [|split; [|split; [|split; [|split]]]]].
  - rewrite group_skip by (eapply names_differ; eassumption).
    cbn. rewrite Hs1. reflexivity.
  - rewrite group_skip by (eapply names_differ; eassumption).
    cbn. rewrite Hs2. reflexivity.
  - apply Hcons. reflexivity.
  - assumption.
  - rewrite <- Hp1, <- Hp2. assumption.
  - lia.
  - lia.
Qed.

Lemma apply_match (semicolonless : bool) (str : jsstring) (m : RegExpMatch) :
  In m (findAll (if semicolonless then applyReSemicolonless else applyRe)
          str) ->
  let C := if semicolonless then notBraceOrLineEnd else notSemicolonOrBrace in
  let from := index m + len (groupOr "1" m) in
  let classList := groupOr "classList" m in
  0 < len classList /\ forallb C classList = true
  /\ substring str from (from + len classList) = classList
  /\ 0 <= from /\ from + len classList <= len str.
Proof.
  intros Hin C from classList. subst C from classList.
  apply findAll_inv in Hin as (s & res & Hloc & Hcaps & H & ->).
  unfold groupOr. cbn [index groups].
  destruct semicolonless;
    (apply (applyHead_match _ _ str) in H
       as (w1 & w2 & -> & -> & H1 & H2 & H3 & H4 & H5);
     [ | assumption | assumption
       | cbn; intros [E | []]; discriminate E
       | cbn; intros [E | []]; discriminate E ]);
    repeat split; assumption.
Qed.

(** X16: every class list that [findClassListsInCssRange] finds in a text,
    without a range, is not empty and is free of the code units that end
    it ([;] and [}], or [}] and the line ends for the languages without
    semicolons), and its range delimits it in the text. *)
Theorem findClassListsInCssRange_sound (text : jsstring)
    (semicolonless : bool) (cl : DocumentClassList.t) :
  In cl (findClassListsInCssRange text semicolonless None) ->
  DocumentClassList.classList cl <> []
  /\ forallb
       (if semicolonless then notBraceOrLineEnd else notSemicolonOrBrace)
       (DocumentClassList.classList cl) = true
  /\ textInRange text (DocumentClassList.range cl)
     = DocumentClassList.classList cl.
Proof.
  unfold findClassListsInCssRange. intros Hin.
  apply in_map_iff in Hin as (m & <- & Hin).
  apply apply_match in Hin as (Hlen & HC & Hsub & H0 & Hle).
  pose proof (len_nonneg (groupOr "classList" m)).
  cbn [classListOfMatch DocumentClassList.classList DocumentClassList.range].
  split; [|split].
  - intros E. rewrite E, len_nil in Hlen. lia.
  - assumption.
  - unfold textInRange. cbn [start end_ line character].
    rewrite !Z.add_0_l.
    assert (Heta : forall p b,
              positionToIndex text
                {| line := line p;
                   character := (if b : bool then 0 else 0) + character p |}
              = positionToIndex text p).
    { intros [l c] b. destruct b; reflexivity. }
    rewrite !Heta.
    rewrite !positionToIndex_indexToPosition by lia.
    assumption.
Qed.

(** X17: when the text given to [findClassListsInCssRange] stands in a
    document, after [pre] and before [post], and the range starts at the
    position of its first code unit in the document, the text of the
    document up to the end of the range of a class list ends with the
    class list; and the range delimits the class list in the document
    when the class list has no newline, as always for the languages
    without semicolons. *)
Theorem findClassListsInCssRange_document (text pre post : jsstring)
    (semicolonless : bool) (range : Range) (cl : DocumentClassList.t) :
  let doc := pre ++ text ++ post in
  start range = indexToPosition doc (len pre) ->
  In cl (findClassListsInCssRange text semicolonless (Some range)) ->
  endsWith
    (before doc (positionToIndex doc (end_ (DocumentClassList.range cl))))
    (DocumentClassList.classList cl)
  /\ (newlines (DocumentClassList.classList cl) = 0 ->
      textInRange doc (DocumentClassList.range cl)
      = DocumentClassList.classList cl)
  /\ (semicolonless = true -> newlines (DocumentClassList.classList cl) = 0).
Proof.
  intros doc Hstart Hin. subst doc.
  unfold findClassListsInCssRange in Hin.
  apply in_map_iff in Hin as (m & <- & Hin).
  apply apply_match in Hin as (Hlen & HC & Hsub & H0 & Hle).
  set (from := index m + len (groupOr "1" m)) in *.
  set (w := groupOr "classList" m) in *.
  pose proof (len_nonneg w). pose proof (len_nonneg pre).
  pose proof (len_nonneg post).
  change (DocumentClassList.range (classListOfMatch text (start range) m))
    with (absoluteRange range (indexToPosition text from)
            (indexToPosition text (from + len w))).
  cbn [classListOfMatch DocumentClassList.classList]. fold w.
  destruct (absoluteRange_in_document pre text post range from
              (from + len w) Hstart ltac:(lia) ltac:(lia)) as [Hend Hst].
  assert (Hcut : pre ++ text ++ post
                 = (pre ++ before text from) ++ w
                   ++ (skipn (Z.to_nat (from + len w)) text ++ post)).
  { rewrite <- (firstn_skipn (Z.to_nat (from + len w)) text) at 1.
    fold (before text (from + len w)).
    rewrite (before_split text from (from + len w)) by lia.
    rewrite Hsub, <- !app_assoc. reflexivity. }
  assert (Hfront : len (pre ++ before text from) = len pre + from).
  { rewrite len_app. f_equal. unfold before, len in *.
    rewrite length_firstn. lia. }
  split; [|split].
  - rewrite Hend.
    rewrite positionToIndex_indexToPosition by (rewrite !len_app; lia).
    exists (pre ++ before text from).
    rewrite Hcut.
    replace (len pre + (from + len w))
      with (len ((pre ++ before text from) ++ w))
      by (rewrite (len_app _ w); lia).
    rewrite (app_assoc _ w), before_app_len. reflexivity.
  - intros Hn. unfold textInRange. rewrite Hend, Hst.
    + rewrite !positionToIndex_indexToPosition by (rewrite !len_app; lia).
      rewrite Hcut.
      replace (len pre + from) with (len (pre ++ before text from)) by lia.
      replace (len pre + (from + len w))
        with (len (pre ++ before text from) + len w) by lia.
      apply substring_middle.
    + left. apply line_same; try lia. rewrite Hsub. exact Hn.
  - intros ->. clear - HC. induction w as [|c w IH]; [reflexivity|].
    cbn [forallb] in HC. apply andb_true_iff in HC as [Hc Hw].
    cbn [newlines]. rewrite (IH Hw).
    destruct (N.eqb_spec c NL) as [-> | _]; [discriminate Hc | reflexivity].
Qed.

(** ** Helper functions in style sheets *)

Lemma substring_cut (s w : jsstring) (i : Z) :
  0 <= i -> i + len w <= len s ->
  substring s i (i + len w) = w ->
  s = before s i ++ w ++ skipn (Z.to_nat (i + len w)) s
  /\ len (before s i) = i.
Proof.
  intros Hi Hle Hsub. pose proof (len_nonneg w). split.
  - rewrite <- (firstn_skipn (Z.to_nat (i + len w)) s) at 1.
    fold (before s (i + len w)).
    rewrite (before_split s i (i + len w)) by lia.
    rewrite Hsub, <- app_assoc. reflexivity.
  - unfold before, len in *. rewrite length_firstn. lia.
Qed.

Lemma substring_from_0 (s : jsstring) (n : Z) :
  substring s 0 n = before s (clamp s n).
Proof.
  unfold substring, before. pose proof (len_nonneg s).
  assert (E0 : clamp s 0 = 0) by (unfold clamp; lia).
  assert (En : 0 <= clamp s n) by (unfold clamp; lia).
  rewrite E0, Z.min_l, Z.max_r, Z.sub_0_r by lia. reflexivity.
Qed.

Lemma before_prefix (s : jsstring) (n : Z) :
  exists t, s = before s n ++ t.
Proof.
  exists (skipn (Z.to_nat n) s). symmetry. apply firstn_skipn.
Qed.

Lemma dropSpaces_suffix (s : jsstring) : exists u, s = u ++ dropSpaces s.
Proof.
  induction s as [|c s (u & IH)]; [exists []; reflexivity|].
  cbn [dropSpaces]. destruct (is_space c).
  - exists (c :: u). cbn. rewrite <- IH. reflexivity.
  - exists []. reflexivity.
Qed.

Lemma trimEnd_prefix (s : jsstring) : exists t, s = trimEnd s ++ t.
Proof.
  unfold trimEnd. destruct (dropSpaces_suffix (rev s)) as (u & Hu).
  exists (rev u). rewrite <- rev_app_distr, <- Hu, rev_involutive.
  reflexivity.
Qed.

(** An expression that ends with [$] matches up to the end of the text. *)
Lemma matchRe_to_end (r : regex) :
  endsAtEol r = true ->
  forall k s res,
    matchRe r k s = Some res ->
    exists s1, advances s s1 /\ rest s1 = [] /\ k s1 = Some res.
Proof.
  induction r as [ | class | r1 _ r2 IH2 | r1 _ r2 _ | greedy r1 _
                 | name r1 _ | r1 _ | | ];
    cbn [endsAtEol]; intros He k s res H; try discriminate.
  - cbn [matchRe] in H. apply matchRe_advances in H as (s1 & Ha & H).
    apply (IH2 He) in H as (s2 & Ha2 & Hr & H).
    exists s2. split; [eapply advances_trans; eassumption|].
    split; assumption.
  - cbn [matchRe] in H. destruct (rest s) eqn:Hr; [|discriminate].
    exists s. split; [apply advances_refl|]. split; assumption.
Qed.

(** Replacing by nothing the match of an expression that ends with [$]
    leaves a prefix of the string. *)
Lemma replaceFirst_to_end (re : regex) (s : jsstring) :
  endsAtEol re = true ->
  exists t, s = replaceFirst re s (fun _ => []) ++ t.
Proof.
  intros He. unfold replaceFirst. pose proof (len_nonneg s) as Hl.
  destruct (exec re s 0) as [m|] eqn:E;
    [|exists []; rewrite app_nil_r; reflexivity].
  apply exec_inv in E as (s0 & res & (front & Hs & Hp) & _ & H & ->);
    [|lia].
  apply (matchRe_to_end re He) in H as (s1 & (w & Hr & Hp1) & Hr1 & [= ->]).
  rewrite Hr1, app_nil_r in Hr. cbn [index whole].
  assert (Hwhole : substring s (pos s0) (pos res) = w).
  { rewrite Hp1, Hp, Hs, Hr. rewrite <- (app_nil_r w) at 1.
    apply substring_middle. }
  rewrite Hwhole. exists w. cbn [app]. rewrite Hp.
  rewrite Hs, Hr. unfold len. rewrite <- Nat2Z.inj_add, !Nat2Z.id.
  rewrite firstn_app, firstn_all, Nat.sub_diag. cbn [firstn].
  rewrite app_nil_r. rewrite <- length_app, skipn_all, app_nil_r.
  reflexivity.
Qed.

(** An expression that begins with [^] matches at the start only: after
    its match is replaced by nothing, the match and what is left make the
    string. *)
Lemma replaceFirst_at_start (body : regex) (s : jsstring) :
  s = match exec (Seq Bol body) s 0 with
      | Some q => whole q
      | None => []
      end
      ++ replaceFirst (Seq Bol body) s (fun _ => []).
Proof.
  unfold replaceFirst. pose proof (len_nonneg s) as Hl.
  destruct (exec (Seq Bol body) s 0) as [m|] eqn:E; [|reflexivity].
  pose proof E as E'.
  apply exec_spec in E' as (_ & Hle & Hw & _); [|lia].
  apply exec_inv in E as (s0 & res & _ & _ & H & ->); [|lia].
  cbn [matchRe] in H. destruct (Z.eqb_spec (pos s0) 0) as [E0 | _];
    [|discriminate].
  cbn [index whole] in *. rewrite E0 in *. cbn [Z.add firstn app] in *.
  set (w := substring s 0 (pos res)) in *.
  pose proof (len_nonneg w).
  rewrite Hw at 1. rewrite substring_from_0, clamp_id by lia.
  symmetry. apply firstn_skipn.
Qed.

(** The group 1 of the expression for the modifier is a prefix of the
    string. *)
Lemma modifier_prefix (s : jsstring) (ms : RegExpMatch) :
  exec modifierRe s 0 = Some ms ->
  exists t, s = groupOr "1" ms ++ t.
Proof.
  intros E. pose proof (len_nonneg s) as Hl.
  apply exec_inv in E as (s0 & res & Hloc & Hcaps & H & ->); [|lia].
  unfold modifierRe in H.
  change (matchRe (Seq Bol ?r) Some s0)
    with (if pos s0 =? 0 then matchRe r Some s0 else None) in H.
  destruct (Z.eqb_spec (pos s0) 0) as [E0 | _]; [|discriminate].
  apply (group_first (fun _ => true) s) in H
    as (s1 & w & Hloc1 & Hp1 & Hs1 & _ & _ & Hc1 & _ & Hle1 & H);
    [|apply classesWithin_any | reflexivity | assumption].
  apply (tail_captures s) in H as (_ & _ & added & Hc & Hadded);
    [|assumption].
  unfold groupOr. cbn [groups]. rewrite Hc, Hc1, Hcaps.
  rewrite group_skip.
  - cbn. rewrite Hs1. rewrite E0 in *.
    rewrite <- Hs1, substring_from_0. apply before_prefix.
  - eapply names_differ; [|exact Hadded].
    cbn. intros [E | []]. discriminate E.
Qed.

(** What [helperOfMatch] makes of the captured argument: the quotes it
    strips at the start and the path stand at the start of the argument. *)
Lemma helperOfMatch_path_in_argument (text : jsstring) (range : option Range)
    (m : RegExpMatch) :
  let quotesBefore :=
    match exec quotesAtStartRe
            (replaceFirst quotesAtEndRe
               match getFirstCommaIndex (groupOr "path" m) with
               | Some commaIndex =>
                   trimEnd (slice0 (groupOr "path" m) commaIndex)
               | None => groupOr "path" m
               end (fun _ => [])) 0 with
    | Some q => whole q
    | None => []
    end in
  exists t,
    groupOr "path" m
    = quotesBefore ++ path (helperOfMatch text range m) ++ t.
Proof.
  intros quotesBefore. subst quotesBefore.
  unfold helperOfMatch. cbn [path].
  set (arg := groupOr "path" m).
  set (path1 := match getFirstCommaIndex arg with
                | Some commaIndex => trimEnd (slice0 arg commaIndex)
                | None => arg
                end).
  set (path2 := replaceFirst quotesAtEndRe path1 (fun _ => [])).
  set (path3 := replaceFirst quotesAtStartRe path2 (fun _ => [])).
  set (path4 := match exec modifierRe path3 0 with
                | Some ms => groupOr "1" ms
                | None => path3
                end).
  assert (H1 : exists t, arg = path1 ++ t).
  { subst path1. destruct (getFirstCommaIndex arg) as [k|];
      [|exists []; rewrite app_nil_r; reflexivity].
    destruct (trimEnd_prefix (slice0 arg k)) as (t1 & Ht1).
    destruct (before_prefix arg k) as (t2 & Ht2).
    exists (t1 ++ t2). rewrite app_assoc, <- Ht1. exact Ht2. }
  assert (H2 : exists t, path1 = path2 ++ t)
    by (apply replaceFirst_to_end; reflexivity).
  pose proof (replaceFirst_at_start (Plus (Chr is_quote)) path2) as H3.
  fold quotesAtStartRe in H3. fold path3 in H3.
  assert (H4 : exists t, path3 = path4 ++ t).
  { subst path4. destruct (exec modifierRe path3 0) as [ms|] eqn:E;
      [apply modifier_prefix; exact E|].
    exists []. rewrite app_nil_r. reflexivity. }
  assert (H5 : exists t,
            path4 = replaceFirst quotesAndSpacesAtEndRe path4 (fun _ => [])
                    ++ t)
    by (apply replaceFirst_to_end; reflexivity).
  destruct H1 as (t1 & H1), H2 as (t2 & H2), H4 as (t4 & H4),
    H5 as (t5 & H5).
  exists (t5 ++ t4 ++ t2 ++ t1).
  rewrite H1 at 1. rewrite H2 at 1. rewrite H3 at 1. rewrite H4 at 1.
  rewrite H5 at 1. rewrite <- !app_assoc. reflexivity.
Qed.

Lemma helper_match (text : jsstring) (m : RegExpMatch) :
  In m (findAll helperRe text) ->
  let startIndex :=
    index m + len (groupOr "prefix" m) + len (groupOr "helper" m)
    + len (groupOr "innerPrefix" m) in
  let arg := groupOr "path" m in
  forallb notCloseParen arg = true
  /\ substring text startIndex (startIndex + len arg) = arg
  /\ 0 <= startIndex /\ startIndex + len arg <= len text.
Proof.
  intros Hin startIndex arg. subst startIndex arg.
  apply findAll_inv in Hin as (s & res & Hloc & Hcaps & H & ->).
  unfold helperRe in H.
  apply (group_first (fun _ => true) text) in H
    as (s1 & w1 & Hloc1 & Hp1 & Hs1 & _ & _ & Hc1 & H01 & _ & H);
    [|apply classesWithin_any | reflexivity | assumption].
  apply (group_first (fun _ => true) text) in H
    as (s2 & w2 & Hloc2 & Hp2 & Hs2 & _ & _ & Hc2 & _ & _ & H);
    [|apply classesWithin_any | reflexivity | assumption].
  apply (group_first (fun _ => true) text) in H
    as (s3 & w3 & Hloc3 & Hp3 & Hs3 & _ & _ & Hc3 & H03 & _ & H);
    [|apply classesWithin_any | reflexivity | assumption].
  apply (group_first notCloseParen text) in H
    as (s4 & w4 & Hloc4 & Hp4 & Hs4 & Hw4 & _ & Hc4 & H04 & Hle4 & H);
    [|cbn; auto | reflexivity | assumption].
  apply (tail_captures text) in H as (_ & _ & added & Hc & Hadded);
    [|assumption].
  apply no_names_no_captures in Hadded. subst added. cbn [app] in Hc.
  unfold groupOr. cbn [index groups].
  rewrite Hc, Hc4, Hc3, Hc2, Hc1, Hcaps. cbn.
  rewrite Hs1, Hs2, Hs3, Hs4.
  replace (pos s + len w1 + len w2 + len w3) with (pos s3) by lia.
  rewrite <- Hp4.
  split; [assumption|]. split; [assumption|]. split; lia.
Qed.

(** X18: for every helper function that [findHelperFunctionsInRange] finds
    in a text, without a range: the range of the path delimits the path in
    the text; the full range delimits an argument without a closing
    parenthesis, and the path is a piece of it. *)
Theorem findHelperFunctionsInRange_ranges (text : jsstring)
    (h : DocumentHelperFunction) :
  In h (findHelperFunctionsInRange text None) ->
  textInRange text (path_ (ranges h)) = path h
  /\ forallb notCloseParen (textInRange text (full (ranges h))) = true
  /\ exists a b, textInRange text (full (ranges h)) = a ++ path h ++ b.
Proof.
  unfold findHelperFunctionsInRange. intros Hin.
  apply in_map_iff in Hin as (m & <- & Hin).
  apply helper_match in Hin as (Hparen & Hsub & H0 & Hle).
  destruct (helperOfMatch_path_in_argument text None m) as (t & Harg).
  set (p := path (helperOfMatch text None m)) in *.
  assert (Hranges :
    ranges (helperOfMatch text None m)
    = {| full :=
           {| start := indexToPosition text
                (index m + len (groupOr "prefix" m)
                 + len (groupOr "helper" m) + len (groupOr "innerPrefix" m));
              end_ := indexToPosition text
                (index m + len (groupOr "prefix" m)
                 + len (groupOr "helper" m) + len (groupOr "innerPrefix" m)
                 + len (groupOr "path" m)) |};
         path_ :=
           {| start := indexToPosition text
                (index m + len (groupOr "prefix" m)
                 + len (groupOr "helper" m) + len (groupOr "innerPrefix" m)
                 + len match exec quotesAtStartRe
                               (replaceFirst quotesAtEndRe
                                  match getFirstCommaIndex (groupOr "path" m)
                                  with
                                  | Some commaIndex =>
                                      trimEnd
                                        (slice0 (groupOr "path" m) commaIndex)
                                  | None => groupOr "path" m
                                  end (fun _ => [])) 0 with
                       | Some q => whole q
                       | None => []
                       end);
              end_ := indexToPosition text
                (index m + len (groupOr "prefix" m)
                 + len (groupOr "helper" m) + len (groupOr "innerPrefix" m)
                 + len match exec quotesAtStartRe
                               (replaceFirst quotesAtEndRe
                                  match getFirstCommaIndex (groupOr "path" m)
                                  with
                                  | Some commaIndex =>
                                      trimEnd
                                        (slice0 (groupOr "path" m) commaIndex)
                                  | None => groupOr "path" m
                                  end (fun _ => [])) 0 with
                       | Some q => whole q
                       | None => []
                       end
                 + len p) |} |}) by reflexivity.
  rewrite Hranges. cbn [full path_].
  set (startIndex := index m + len (groupOr "prefix" m)
                     + len (groupOr "helper" m)
                     + len (groupOr "innerPrefix" m)) in *.
  set (arg := groupOr "path" m) in *.
  set (qb := match exec quotesAtStartRe _ 0 with
             | Some q => whole q
             | None => []
             end) in *.
  pose proof (len_nonneg arg). pose proof (len_nonneg qb).
  pose proof (len_nonneg p). pose proof (len_nonneg t).
  assert (Hlen : len arg = len qb + len p + len t).
  { rewrite Harg, !len_app. lia. }
  destruct (substring_cut text arg startIndex H0 Hle Hsub) as [Hcut Hfront].
  unfold textInRange. cbn [start end_].
  rewrite !positionToIndex_indexToPosition by lia.
  split; [|split].
  - set (after := skipn (Z.to_nat (startIndex + len arg)) text) in Hcut.
    clearbody after. rewrite Hcut. rewrite Harg at 1.
    replace (before text startIndex ++ (qb ++ p ++ t) ++ after)
      with ((before text startIndex ++ qb) ++ p ++ (t ++ after))
      by (rewrite <- !app_assoc; reflexivity).
    replace (startIndex + len qb)
      with (len (before text startIndex ++ qb)) by (rewrite len_app; lia).
    apply substring_middle.
  - rewrite Hsub. assumption.
  - rewrite Hsub. exists qb, t. exact Harg.
Qed.

(** * The further properties at work *)

(** X3 at work: [flex mt-2] at line 3, character 12, and [flex mt-2] at
    line 0, character 0, marked important, give the same names, variants
    and local ranges. *)
Lemma tokenizers_local_witness :
  map localPart (getClassNamesInClassList twoNames [lit "flex"])
  = map localPart
      (getClassNamesInClassList (flexMt2At 0 (Some true)) [lit "flex"])
  /\ exists toks1 toks2,
       getClassNamesAndVariantsInClassList twoNames [lit "flex"] = Ok toks1
       /\ getClassNamesAndVariantsInClassList (flexMt2At 0 (Some true))
            [lit "flex"] = Ok toks2
       /\ map localPart toks1 = map localPart toks2.
Proof.
  exact (tokenizers_local twoNames (flexMt2At 0 (Some true)) [lit "flex"]
           eq_refl).
Defined.

(** X5 at work: the class list [(a b) c] has parentheses and no colon. *)
Lemma no_colon_no_variants_witness :
  ~ In COLON (DocumentClassList.classList parenthesized)
  /\ exists toks,
       getClassNamesAndVariantsInClassList parenthesized [] = Ok toks
       /\ Forall (fun t => DocumentClassName.variants t = Some []) toks.
Proof.
  assert (Hno : ~ In COLON (DocumentClassList.classList parenthesized)).
  { cbn. intros H.
    repeat (destruct H as [H | H]; [discriminate H|]). exact H. }
  split; [exact Hno|].
  exact (no_colon_no_variants parenthesized [] Hno).
Defined.

(** X6 at work: in [ab], newline, [cd] the offset 1 is on line 0 and the
    offset 3 on line 1. *)
Lemma indexToPosition_strictly_increasing_witness :
  pos_lt (indexToPosition twoLines 1) (indexToPosition twoLines 3)
  /\ indexToPosition twoLines 1 <> indexToPosition twoLines 3.
Proof.
  apply (indexToPosition_strictly_increasing twoLines 1 3).
  - lia.
  - lia.
  - cbn. lia.
Defined.

(** X7 at work: two texts of two lines, the offset 4 of the first and the
    offset 3 of the second. *)
Lemma indexToPosition_concatenation_witness :
  indexToPosition (twoLines ++ twoMoreLines) 4 = indexToPosition twoLines 4
  /\ indexToPosition (twoLines ++ twoMoreLines) (len twoLines + 3)
     = fromBase (indexToPosition twoLines (len twoLines))
         (indexToPosition twoMoreLines 3).
Proof.
  apply (indexToPosition_concatenation twoLines twoMoreLines 4 3).
  - cbn. lia.
  - cbn. lia.
Defined.

(** X8 at work: the name [mt-2] of the class list [sm:flex mt-2] in
    [<p class='sm:flex mt-2'>]. *)
Lemma getClassNamesInClassList_document_range_witness :
  In (nameAt inMarkup (lit "mt-2") 8) (getClassNamesInClassList inMarkup [])
  /\ start (DocumentClassName.range (nameAt inMarkup (lit "mt-2") 8))
     = indexToPosition (lit "<p class='sm:flex mt-2'>") 18
  /\ textInRange (lit "<p class='sm:flex mt-2'>")
       (DocumentClassName.range (nameAt inMarkup (lit "mt-2") 8))
     = lit "mt-2".
Proof.
  assert (Hin : In (nameAt inMarkup (lit "mt-2") 8)
                  (getClassNamesInClassList inMarkup [])).
  { right. left. reflexivity. }
  split; [exact Hin|].
  pose proof (getClassNamesInClassList_document_range inMarkup []
                markupBefore markupAfter (nameAt inMarkup (lit "mt-2") 8)
                eq_refl Hin) as (Hstart & _ & Htext).
  split; [exact Hstart | exact Htext].
Defined.

(** X9 at work: the class names of [sm:flex mt-2] in
    [<p class='sm:flex mt-2'>], for the variant-aware tokenizer. *)
Lemma getClassNamesAndVariantsInClassList_document_range_witness :
  exists toks t,
    getClassNamesAndVariantsInClassList inMarkup [] = Ok toks
    /\ In t toks
    /\ DocumentClassName.className t = lit "flex"
    /\ end_ (DocumentClassName.range t)
       = indexToPosition (lit "<p class='sm:flex mt-2'>") 17.
Proof.
  eexists. eexists.
  split; [reflexivity|]. split; [left; reflexivity|].
  split; [reflexivity|].
  exact (proj1 (getClassNamesAndVariantsInClassList_document_range inMarkup
                  [] markupBefore markupAfter _ _ eq_refl eq_refl
                  (or_introl eq_refl))).
Defined.

(** X11 at work: the comma of [colors.red, 0.5]. *)
Lemma getFirstCommaIndex_unquoted_witness :
  getFirstCommaIndex (lit "colors.red" ++ COMMA :: lit " 0.5") = Some 10.
Proof.
  exact (getFirstCommaIndex_unquoted (lit "colors.red") (lit " 0.5")
           eq_refl).
Defined.

(** X12 at work: in [x'a,b',c] the comma between the quotes is skipped and
    the one after them is found, at index 6. *)
Lemma getFirstCommaIndex_skips_quoted_witness :
  getFirstCommaIndex
    (lit "x" ++ chr "'" :: lit "a,b" ++ chr "'" :: lit ",c")
  = option_map (Z.add (len (lit "x") + len (lit "a,b") + 2))
      (getFirstCommaIndex (lit ",c"))
  /\ getFirstCommaIndex (lit "x" ++ chr "'" :: lit "a,b") = None.
Proof.
  exact (getFirstCommaIndex_skips_quoted (lit "x") (lit "a,b") (lit ",c")
           (chr "'") eq_refl eq_refl eq_refl).
Defined.

(** X13 at work: the matches of the expression of the [@apply] rules in
    a style sheet. *)
Lemma findAll_inOrder_witness :
  consumes applyRe = true
  /\ inOrder applySheet 0 (findAll applyRe applySheet).
Proof.
  split; [reflexivity|].
  exact (findAll_inOrder applyRe applySheet eq_refl).
Defined.

(** X15 at work: the last match of the expression of the [@apply] rules
    in a style sheet. *)
Lemma findLast_greatest_witness :
  (findLast applyRe applySheet = None <-> findAll applyRe applySheet = [])
  /\ (forall m,
        findLast applyRe applySheet = Some m ->
        In m (findAll applyRe applySheet)
        /\ forall m',
             In m' (findAll applyRe applySheet) -> index m' <= index m).
Proof.
  exact (findLast_greatest applyRe applySheet eq_refl).
Defined.

(** X14 at work: the expression of the [@apply] rules on a style sheet of
    24 code units, with 100 turns. *)
Lemma findAll_enough_turns_witness :
  findAllFrom 100 applyRe applySheet 0 = findAll applyRe applySheet
  /\ Forall (fun m => whole m <> []) (findAll applyRe applySheet).
Proof.
  apply (findAll_enough_turns applyRe applySheet 100).
  - reflexivity.
  - apply Nat.ltb_lt. reflexivity.
Defined.

(** What [findClassListsInCssRange] returns for the style sheets of the
    samples. *)
Lemma findClassListsInCssRange_applySheet :
  findClassListsInCssRange applySheet false None
  = [flexMt2At 12 (Some false)].
Proof. vm_compute. reflexivity. Qed.

Lemma findClassListsInCssRange_in_style :
  findClassListsInCssRange applySheet false (Some styleRange)
  = [flexMt2At 19 (Some false)].
Proof. vm_compute. reflexivity. Qed.

(** X16 at work: the class list of [.a { @apply flex mt-2; }]. *)
Lemma findClassListsInCssRange_sound_witness :
  In (flexMt2At 12 (Some false))
    (findClassListsInCssRange applySheet false None)
  /\ DocumentClassList.classList (flexMt2At 12 (Some false)) <> []
  /\ forallb notSemicolonOrBrace
       (DocumentClassList.classList (flexMt2At 12 (Some false))) = true
  /\ textInRange applySheet
       (DocumentClassList.range (flexMt2At 12 (Some false)))
     = lit "flex mt-2".
Proof.
  assert (Hin : In (flexMt2At 12 (Some false))
                  (findClassListsInCssRange applySheet false None)).
  { rewrite findClassListsInCssRange_applySheet. left. reflexivity. }
  split; [exact Hin|].
  exact (findClassListsInCssRange_sound applySheet false
           (flexMt2At 12 (Some false)) Hin).
Defined.

(** X17 at work: the same style sheet in a [style] element. *)
Lemma findClassListsInCssRange_document_witness :
  In (flexMt2At 19 (Some false))
    (findClassListsInCssRange applySheet false (Some styleRange))
  /\ textInRange (styleBefore ++ applySheet ++ styleAfter)
       (DocumentClassList.range (flexMt2At 19 (Some false)))
     = lit "flex mt-2".
Proof.
  assert (Hin : In (flexMt2At 19 (Some false))
                  (findClassListsInCssRange applySheet false
                     (Some styleRange))).
  { rewrite findClassListsInCssRange_in_style. left. reflexivity. }
  split; [exact Hin|].
  exact (proj1 (proj2
           (findClassListsInCssRange_document applySheet styleBefore
              styleAfter false styleRange (flexMt2At 19 (Some false))
              eq_refl Hin)) eq_refl).
Defined.

(** X18 at work: the helper function of the style sheet
    [.a { color: theme('colors.red.500' / 50, red); }]. *)
Lemma findHelperFunctionsInRange_ranges_witness :
  In themeInSheet (findHelperFunctionsInRange sheet None)
  /\ textInRange sheet (path_ (ranges themeInSheet)) = lit "colors.red.500"
  /\ forallb notCloseParen (textInRange sheet (full (ranges themeInSheet)))
     = true
  /\ exists a b,
       textInRange sheet (full (ranges themeInSheet))
       = a ++ lit "colors.red.500" ++ b.
Proof.
  assert (Hin : In themeInSheet (findHelperFunctionsInRange sheet None)).
  { rewrite findHelperFunctionsInRange_sheet. left. reflexivity. }
  split; [exact Hin|].
  exact (findHelperFunctionsInRange_ranges sheet themeInSheet Hin).
Defined.
